(** * pubsub: a key-indexed publish/subscribe registry

    Shallow embedding of [pubsub.go] (the context-aware revision: [New],
    [Subscribe], [Unsubscribe], [Publish], [PublishWithTimeout]) and the
    properties of the registry and of its delivery loop. *)

From Stdlib Require Import ZArith Lia.
From stdpp Require Import base option list gmap fin_sets strings.

Open Scope Z_scope.

(** ** Data model *)

(** A [chan T] value is a reference; two channels are the same subscriber
    exactly when they are the same reference. *)
Definition chan := positive.

(** [ctx.Err()] of the standard library's contexts. *)
Inductive ErrorKind := Canceled | DeadlineExceeded.

(** A [context.Context], seen through the two methods [Publish] uses: its
    [Done] channel is closed from some instant on (or never), and from then on
    [Err] reports why.  [DoneAt t Canceled] is a context whose [cancel] runs at
    instant [t]; [DoneAt t DeadlineExceeded] one whose deadline is [t]. *)
Inductive Ctx := Background | DoneAt (t : Z) (e : ErrorKind).

(** [ctx.Err()] at instant [t]; [<-ctx.Done()] can proceed exactly when it is
    not [None]. *)
Definition Err (ctx : Ctx) (t : Z) : option ErrorKind :=
  match ctx with
  | Background => None
  | DoneAt t0 e => if decide (t0 ≤ t) then Some e else None
  end.

(** [context.WithTimeout(parent, timeout)] called at instant [start]: done when
    the parent is, or at [start + timeout], whichever comes first. *)
Definition WithTimeout (parent : Ctx) (start timeout : Z) : Ctx :=
  match parent with
  | Background => DoneAt (start + timeout) DeadlineExceeded
  | DoneAt t e =>
      if decide (t ≤ start + timeout) then DoneAt t e
      else DoneAt (start + timeout) DeadlineExceeded
  end.

Module Registry.
Section registry.
Context {K : Type} {EqK : EqDecision K} {CountK : Countable K}.

(** [subscribers map[K]map[chan T]struct{}] *)
Definition New : gmap K (gset chan) := ∅.

(** One iteration of the loop of [Subscribe]: create the inner set when the
    key is new, then add the channel to the set stored under the key. *)
Definition Subscribe1 (ch : chan) (subscribers : gmap K (gset chan)) (key : K)
  : gmap K (gset chan) :=
  let subscribers1 :=
    match subscribers !! key with
    | None => <[key := ∅]> subscribers
    | Some _ => subscribers
    end in
  <[key := {[ch]} ∪ default ∅ (subscribers1 !! key)]> subscribers1.

Definition Subscribe (keys : list K) (ch : chan)
  (subscribers : gmap K (gset chan)) : gmap K (gset chan) :=
  foldl (Subscribe1 ch) subscribers keys.

(** One iteration of the loop of [Unsubscribe]: [delete(subs, ch)] on the
    inner set, which is shared with the index, then [delete] of the key when
    the set is left empty. *)
Definition Unsubscribe1 (ch : chan) (subscribers : gmap K (gset chan)) (key : K)
  : gmap K (gset chan) :=
  match subscribers !! key with
  | Some subs =>
      let subs' := subs ∖ {[ch]} in
      if decide (size subs' = 0%nat) then delete key subscribers
      else <[key := subs']> subscribers
  | None => subscribers
  end.

Definition Unsubscribe (keys : list K) (ch : chan)
  (subscribers : gmap K (gset chan)) : gmap K (gset chan) :=
  foldl (Unsubscribe1 ch) subscribers keys.

(** The subscriber set of a key, empty for a key without an entry. *)
Definition subs_of (subscribers : gmap K (gset chan)) (key : K) : gset chan :=
  default ∅ (subscribers !! key).

(** A key has an entry exactly when its subscriber set is not empty. *)
Definition index_inv (subscribers : gmap K (gset chan)) : Prop :=
  ∀ key, is_Some (subscribers !! key) ↔ subs_of subscribers key ≠ ∅.

(** The states a registry can be in: those built by the exported calls. *)
Inductive reachable : gmap K (gset chan) → Prop :=
| reach_New : reachable New
| reach_Subscribe keys ch m :
    reachable m → reachable (Subscribe keys ch m)
| reach_Unsubscribe keys ch m :
    reachable m → reachable (Unsubscribe keys ch m).

(** What [Unsubscribe] leaves under a key it was asked to visit. *)
Definition without (ch : chan) (entry : option (gset chan)) : option (gset chan) :=
  match entry with
  | Some subs => if decide (subs ∖ {[ch]} = ∅) then None else Some (subs ∖ {[ch]})
  | None => None
  end.

End registry.
End Registry.

(** ** Channels and the delivery loop *)

Module Delivery.
Section delivery.
Context {K : Type} {EqK : EqDecision K} {CountK : Countable K} {T : Type}.

(** The state of one channel, after the runtime's [hchan]: capacity, queued
    elements, receivers parked on it, the closed flag; [got] collects what
    receivers have taken out so far. *)
Record hchan := Hchan {
  dataqsiz : nat;
  buf : list T;
  recvq : nat;
  closed : bool;
  got : list T
}.

(** The part of the process [Publish] interacts with: the clock and the
    channel objects.  A reference without an object is the nil channel. *)
Record world := World {
  now : Z;
  heap : gmap chan hchan
}.

(** Whether a send on the channel can proceed (on a closed channel it
    proceeds by panicking). *)
Definition can_send (c : hchan) : bool :=
  closed c || (0 <? recvq c)%nat || (length (buf c) <? dataqsiz c)%nat.

(** A send that can proceed: [None] is the panic of a send on a closed
    channel; a parked receiver takes the value directly, otherwise it is
    queued. *)
Definition chansend (msg : T) (c : hchan) : option hchan :=
  if closed c then None
  else if (0 <? recvq c)%nat then
    Some (Hchan (dataqsiz c) (buf c) (pred (recvq c)) false (got c ++ [msg]))
  else
    Some (Hchan (dataqsiz c) (buf c ++ [msg]) (recvq c) false (got c)).

(** A reader arrives at the channel: it takes the oldest queued element, or
    parks until a sender comes. *)
Definition chanrecv (c : hchan) : hchan :=
  match buf c with
  | m :: rest => Hchan (dataqsiz c) rest (recvq c) (closed c) (got c ++ [m])
  | [] =>
      if closed c then c
      else Hchan (dataqsiz c) [] (S (recvq c)) false (got c)
  end.

Definition send_ready (w : world) (ch : chan) : bool :=
  match heap w !! ch with
  | Some c => can_send c
  | None => false
  end.

(** Everything the endpoint has accepted so far, read or still queued. *)
Definition inbox (w : world) (ch : chan) : list T :=
  match heap w !! ch with
  | Some c => got c ++ buf c
  | None => []
  end.

(** What happens while a [Publish] call is in progress: the clock advances,
    a reader arrives at a channel, or the publishing goroutine is scheduled.
    [pick_send] is the choice [select] makes when both of its cases can
    proceed. *)
Inductive action := Tick | Recv (ch : chan) | Run (pick_send : bool).

(** The control state of the call: inside the [for ... range subs] loop, at
    the [select] for the head of [todo]; returned; or panicked. *)
Inductive pstate :=
| Running (todo : list chan) (delivered : nat)
| Returned (delivered : nat) (err : option ErrorKind)
| Panicked.

(** Top of the loop: the next endpoint, or [return delivered, nil]. *)
Definition loop (todo : list chan) (delivered : nat) : pstate :=
  match todo with
  | [] => Returned delivered None
  | _ :: _ => Running todo delivered
  end.

(** [case ch <- msg: delivered++] *)
Definition send_case (msg : T) (w : world) (ch : chan) (rest : list chan)
  (delivered : nat) : world * pstate :=
  match heap w !! ch ≫= chansend msg with
  | Some c' => (World (now w) (<[ch := c']> (heap w)), loop rest (S delivered))
  | None => (w, Panicked)
  end.

(** The [select] statement, when the goroutine is scheduled. *)
Definition select (ctx : Ctx) (msg : T) (pick_send : bool) (w : world)
  (ch : chan) (rest : list chan) (delivered : nat) : world * pstate :=
  match send_ready w ch, Err ctx (now w) with
  | false, None => (w, Running (ch :: rest) delivered)
  | false, Some e => (w, Returned delivered (Some e))
  | true, None => send_case msg w ch rest delivered
  | true, Some e =>
      if pick_send then send_case msg w ch rest delivered
      else (w, Returned delivered (Some e))
  end.

Definition env_step (a : action) (w : world) : world :=
  match a with
  | Tick => World (now w + 1) (heap w)
  | Recv ch =>
      match heap w !! ch with
      | Some c => World (now w) (<[ch := chanrecv c]> (heap w))
      | None => w
      end
  | Run _ => w
  end.

Definition step (ctx : Ctx) (msg : T) (cfg : world * pstate) (a : action)
  : world * pstate :=
  match cfg.2 with
  | Running (ch :: rest) delivered =>
      match a with
      | Run pick_send => select ctx msg pick_send cfg.1 ch rest delivered
      | _ => (env_step a cfg.1, cfg.2)
      end
  | Running [] delivered => (cfg.1, Returned delivered None)
  | Returned _ _ | Panicked => cfg
  end.

Definition run (ctx : Ctx) (msg : T) (trace : list action)
  (cfg : world * pstate) : world * pstate :=
  foldl (step ctx msg) cfg trace.

(** [Publish], under the schedule [trace]; [iter] is the order in which
    [range] visits the subscriber set.  The index is passed through: the
    call holds the read lock from entry to return, so it is the same map all
    along. *)
Definition Publish (iter : gset chan → list chan) (ctx : Ctx) (key : K)
  (msg : T) (trace : list action) (subscribers : gmap K (gset chan))
  (w : world) : gmap K (gset chan) * (world * pstate) :=
  match subscribers !! key with
  | None => (subscribers, (w, Returned 0 None))
  | Some subs => (subscribers, run ctx msg trace (w, loop (iter subs) 0))
  end.

(** [PublishWithTimeout]: the context is built when the call starts; the
    deferred [cancel] runs once [Publish] has produced the result. *)
Definition PublishWithTimeout (iter : gset chan → list chan) (key : K)
  (msg : T) (timeout : Z) (trace : list action)
  (subscribers : gmap K (gset chan)) (w : world)
  : gmap K (gset chan) * (world * pstate) :=
  let ctx := WithTimeout Background (now w) timeout in
  Publish iter ctx key msg trace subscribers w.

(** *** Notions used to state the properties of the loop *)

(** Number of times the schedule lets the publishing goroutine run. *)
Fixpoint runs (trace : list action) : nat :=
  match trace with
  | [] => 0
  | Run _ :: trace' => S (runs trace')
  | _ :: trace' => runs trace'
  end.

(** The endpoint can take a message now: it is open and has a parked reader
    or room in its buffer. *)
Definition accepts (w : world) (ch : chan) : Prop :=
  ∃ c, heap w !! ch = Some c ∧ closed c = false
       ∧ ((0 < recvq c)%nat ∨ (length (buf c) < dataqsiz c)%nat).

(** Between two worlds, exactly the endpoints of [sent] took one more [msg]. *)
Definition delivered_to (msg : T) (w0 w : world) (sent : list chan) : Prop :=
  (∀ ch, ch ∈ sent → inbox w ch ≡ₚ msg :: inbox w0 ch)
  ∧ (∀ ch, ch ∉ sent → inbox w ch = inbox w0 ch).

(** Where a call that started on [todo0] in world [w0] stands. *)
Definition progress (msg : T) (w0 : world) (todo0 : list chan) (cfg : world * pstate) : Prop :=
  match cfg.2 with
  | Running todo n =>
      ∃ sent, todo0 = sent ++ todo ∧ todo ≠ [] ∧ n = length sent
              ∧ delivered_to msg w0 cfg.1 sent
  | Returned n err =>
      ∃ sent rest, todo0 = sent ++ rest ∧ n = length sent
                   ∧ (err = None ↔ rest = [])
                   ∧ delivered_to msg w0 cfg.1 sent
  | Panicked => True
  end.

(** The world after a stretch of the schedule in which only the
    environment moves. *)
Definition env_run (envs : list action) (w : world) : world :=
  foldl (λ w' a, env_step a w') w envs.

(** The partial-delivery property in its unconditional form: once the
    call stands at its [select] with [k] endpoints served and the context is
    done, the next time the goroutine runs it returns [k] with the context's
    error, whatever the state of the next endpoint. *)
Definition partial_delivery_unconditional (iter : gset chan → list chan)
  (ctx : Ctx) (key : K) (msg : T) (subscribers : gmap K (gset chan))
  (w : world) : Prop :=
  ∀ subs t1 envs pick t3 w1 ch rest k e,
    subscribers !! key = Some subs →
    run ctx msg t1 (w, loop (iter subs) 0) = (w1, Running (ch :: rest) k) →
    runs envs = 0%nat →
    Err ctx (now (env_run envs w1)) = Some e →
    ∃ w', Publish iter ctx key msg (t1 ++ envs ++ Run pick :: t3) subscribers w
            = (subscribers, (w', Returned k (Some e)))
          ∧ ∀ c, c ∈ ch :: rest → inbox w' c = inbox w c.

(** A context that fires once [duration] has elapsed from [start]: what
    [Err] answers at each instant. *)
Definition fires_after (start duration : Z) (ctx : Ctx) : Prop :=
  ∀ t, Err ctx t =
         if decide (start + duration ≤ t) then Some DeadlineExceeded else None.

End delivery.
End Delivery.

Import Registry Delivery.

(** ** Goroutines calling into one registry

    The calls as the goroutines of one process run them: each call is a
    sequence of atomic steps, the first taking [ps.mu], the last (the deferred
    one) releasing it, and a schedule interleaves the steps of all calls. *)

Module Concurrent.
Section concurrent.
Context {K : Type} {EqK : EqDecision K} {CountK : Countable K} {T : Type}.

(** [sync.RWMutex]: held by one writer, or by any number of readers. *)
Record RWMutex := Mutex {
  writer : bool;
  readers : nat
}.

(** [type PubSub struct { mu sync.RWMutex; subscribers map[K]map[chan T]struct{} }] *)
Record PubSub := Build {
  mu : RWMutex;
  subscribers : gmap K (gset chan)
}.

Inductive call :=
| CallSubscribe (keys : list K) (ch : chan)
| CallUnsubscribe (keys : list K) (ch : chan)
| CallPublish (iter : gset chan → list chan) (ctx : Ctx) (key : K) (msg : T).

(** Where a goroutine stands in its call. *)
Inductive pc :=
| AtEntry                     (* before [ps.mu.Lock()] or [ps.mu.RLock()] *)
| InWrite (todo : list K)     (* after [Lock], in the loop over the keys *)
| InRead                      (* after [RLock], before the lookup *)
| InFanout (st : pstate)      (* after the lookup, until the deferred [RUnlock] *)
| Done (result : option pstate).  (* lock released, call over *)

Record system := System {
  ps : PubSub;
  wld : world (T := T);
  goroutines : list (call * pc)
}.

(** The steps of [Subscribe] and [Unsubscribe], which differ in the loop body
    [mutate] only: [Lock], one key per step, then the deferred [Unlock].
    [None] when the goroutine cannot move: in [Lock] while the lock is held
    for reading or writing, or with its call over. *)
Definition write_call_step (mutate : gmap K (gset chan) → K → gmap K (gset chan))
  (keys : list K) (p : pc) (r : PubSub) (w : world (T := T))
  : option (pc * PubSub * world) :=
  match p with
  | AtEntry =>
      if negb (writer (mu r)) && (readers (mu r) =? 0)%nat
      then Some (InWrite keys, Build (Mutex true (readers (mu r))) (subscribers r), w)
      else None
  | InWrite (key :: todo) =>
      Some (InWrite todo, Build (mu r) (mutate (subscribers r) key), w)
  | InWrite [] =>
      Some (Done None, Build (Mutex false (readers (mu r))) (subscribers r), w)
  | _ => None
  end.

(** The steps of [Publish]: [RLock] (which waits while a writer holds the
    lock), the lookup, one [select] per step, then the deferred [RUnlock],
    which also runs when the send panicked. *)
Definition publish_step (iter : gset chan → list chan) (ctx : Ctx) (key : K)
  (msg : T) (p : pc) (pick_send : bool) (r : PubSub) (w : world (T := T))
  : option (pc * PubSub * world) :=
  match p with
  | AtEntry =>
      if writer (mu r) then None
      else Some (InRead, Build (Mutex false (S (readers (mu r)))) (subscribers r), w)
  | InRead =>
      match subscribers r !! key with
      | None => Some (InFanout (Returned 0 None), r, w)
      | Some subs => Some (InFanout (loop (iter subs) 0), r, w)
      end
  | InFanout (Running (ch :: rest) delivered) =>
      let '(w', st') := select ctx msg pick_send w ch rest delivered in
      Some (InFanout st', r, w')
  | InFanout st =>
      Some (Done (Some st),
            Build (Mutex (writer (mu r)) (pred (readers (mu r)))) (subscribers r), w)
  | _ => None
  end.

Definition goroutine_step (c : call) (p : pc) (pick_send : bool)
  (r : PubSub) (w : world (T := T)) : option (pc * PubSub * world) :=
  match c with
  | CallSubscribe keys ch => write_call_step (Subscribe1 ch) keys p r w
  | CallUnsubscribe keys ch => write_call_step (Unsubscribe1 ch) keys p r w
  | CallPublish iter ctx key msg => publish_step iter ctx key msg p pick_send r w
  end.

(** What the scheduler does next: run goroutine [i], or let the environment
    (clock, readers of the channels) move. *)
Inductive sched := Go (i : nat) (pick_send : bool) | Env (a : action).

Definition sys_step (s : system) (a : sched) : system :=
  match a with
  | Env e => System (ps s) (env_step e (wld s)) (goroutines s)
  | Go i pick_send =>
      match goroutines s !! i with
      | Some (c, p) =>
          match goroutine_step c p pick_send (ps s) (wld s) with
          | Some (p', r', w') => System r' w' (<[i := (c, p')]> (goroutines s))
          | None => s
          end
      | None => s
      end
  end.

Definition exec (schedule : list sched) (s : system) : system :=
  foldl sys_step s schedule.

(** The calls [calls] issued on a registry nobody is inside of. *)
Definition start (calls : list call) (index : gmap K (gset chan))
  (w : world (T := T)) : system :=
  System (Build (Mutex false 0) index) w ((λ c, (c, AtEntry)) <$> calls).

Definition holds_write (p : pc) : bool :=
  match p with InWrite _ => true | _ => false end.

Definition holds_read (p : pc) : bool :=
  match p with InRead | InFanout _ => true | _ => false end.

Fixpoint count (f : pc → bool) (gs : list (call * pc)) : nat :=
  match gs with
  | [] => 0
  | (_, p) :: gs' => (if f p then 1 else 0) + count f gs'
  end.

(** The loop body of a call that writes the index. *)
Definition mutation (c : call) : gmap K (gset chan) → K → gmap K (gset chan) :=
  match c with
  | CallSubscribe _ ch => Subscribe1 ch
  | CallUnsubscribe _ ch => Unsubscribe1 ch
  | CallPublish _ _ _ _ => λ m _, m
  end.

(** The lock word agrees with who is inside. *)
Definition lock_inv (s : system) : Prop :=
  count holds_write (goroutines s) = (if writer (mu (ps s)) then 1 else 0)%nat
  ∧ count holds_read (goroutines s) = readers (mu (ps s))
  ∧ (writer (mu (ps s)) = true → readers (mu (ps s)) = 0%nat).

End concurrent.
End Concurrent.


(** ** Sequences of calls, schedules, and the first revision of Publish *)

Module History.
Section history.
Context {K : Type} {EqK : EqDecision K} {CountK : Countable K}.

(** A call that writes the index. *)
Inductive op :=
| OpSubscribe (keys : list K) (ch : chan)
| OpUnsubscribe (keys : list K) (ch : chan).

Definition apply_op (m : gmap K (gset chan)) (o : op) : gmap K (gset chan) :=
  match o with
  | OpSubscribe keys ch => Subscribe keys ch m
  | OpUnsubscribe keys ch => Unsubscribe keys ch m
  end.

(** The calls of [ops] made one after the other. *)
Definition apply_ops (ops : list op) (m : gmap K (gset chan)) : gmap K (gset chan) :=
  foldl apply_op m ops.

(** Whether [ch] is subscribed to [key], followed along the calls: a call that
    names both the key and the endpoint decides, any other call leaves the
    answer as it was. *)
Definition track (key : K) (ch : chan) (b : bool) (o : op) : bool :=
  match o with
  | OpSubscribe keys ch' => if decide (key ∈ keys ∧ ch = ch') then true else b
  | OpUnsubscribe keys ch' => if decide (key ∈ keys ∧ ch = ch') then false else b
  end.

End history.
End History.

Module Schedule.
Section schedule.
Context {T : Type}.

(** How far the clock advances along a schedule. *)
Fixpoint ticks (trace : list action) : Z :=
  match trace with
  | [] => 0
  | Tick :: trace' => 1 + ticks trace'
  | _ :: trace' => ticks trace'
  end.

(** Whether a reader ever arrives at [ch] in the schedule. *)
Fixpoint reads (ch : chan) (trace : list action) : bool :=
  match trace with
  | [] => false
  | Recv ch' :: trace' => bool_decide (ch' = ch) || reads ch trace'
  | _ :: trace' => reads ch trace'
  end.

(** No subscribed channel object of the world is closed. *)
Definition all_open (w : world (T := T)) (subs : gset chan) : Prop :=
  ∀ ch c, ch ∈ subs → heap w !! ch = Some c → closed c = false.

(** A reader parks on a channel only when there is nothing queued for it. *)
Definition chan_wf (c : hchan (T := T)) : Prop :=
  (0 < recvq c)%nat → buf c = [].

Definition world_wf (w : world (T := T)) : Prop :=
  ∀ ch c, heap w !! ch = Some c → chan_wf c.

(** Where a call that started on [todo0] in world [w0] stands, the panicked
    ones included: the endpoints of [sent] have been served, in this order,
    those of [rest] have not. *)
Definition served (msg : T) (w0 : world (T := T)) (todo0 : list chan)
  (cfg : world (T := T) * pstate) : Prop :=
  ∃ sent rest,
    todo0 = sent ++ rest
    ∧ delivered_to msg w0 cfg.1 sent
    ∧ match cfg.2 with
      | Running todo n => todo = rest ∧ rest ≠ [] ∧ n = length sent
      | Returned n err => n = length sent ∧ (err = None ↔ rest = [])
      | Panicked => rest ≠ []
      end.

End schedule.
End Schedule.

(** The first revision of [Publish] ([pubsub.go], without a context): a plain
    blocking send to every subscriber, no count and no error. *)
Module Legacy.
Section legacy.
Context {K : Type} {EqK : EqDecision K} {CountK : Countable K} {T : Type}.

Inductive bstate :=
| BRunning (todo : list chan)
| BReturned
| BPanicked.

Definition bloop (todo : list chan) : bstate :=
  match todo with
  | [] => BReturned
  | _ :: _ => BRunning todo
  end.

(** [ch <- msg]: waits until the send can proceed. *)
Definition bsend (msg : T) (w : world) (ch : chan) (rest : list chan)
  : world * bstate :=
  if send_ready w ch then
    match heap w !! ch ≫= chansend msg with
    | Some c' => (World (now w) (<[ch := c']> (heap w)), bloop rest)
    | None => (w, BPanicked)
    end
  else (w, BRunning (ch :: rest)).

Definition bstep (msg : T) (cfg : world * bstate) (a : action)
  : world * bstate :=
  match cfg.2 with
  | BRunning (ch :: rest) =>
      match a with
      | Run _ => bsend msg cfg.1 ch rest
      | _ => (env_step a cfg.1, cfg.2)
      end
  | BRunning [] => (cfg.1, BReturned)
  | BReturned | BPanicked => cfg
  end.

Definition Publish (iter : gset chan → list chan) (key : K) (msg : T)
  (trace : list action) (subscribers : gmap K (gset chan)) (w : world)
  : gmap K (gset chan) * (world * bstate) :=
  match subscribers !! key with
  | None => (subscribers, (w, BReturned))
  | Some subs => (subscribers, foldl (bstep msg) (w, bloop (iter subs)) trace)
  end.

(** The control state of the second revision, without its counter and error. *)
Definition forget (st : pstate) : bstate :=
  match st with
  | Running todo _ => BRunning todo
  | Returned _ _ => BReturned
  | Panicked => BPanicked
  end.

End legacy.
End Legacy.

(** Write calls seen as operations on the index, and the state of a system
    explained by an order in which the completed write calls took effect. *)
Module Serial.
Section serial.
Import Concurrent History.
Context {K : Type} {EqK : EqDecision K} {CountK : Countable K} {T : Type}.

Definition to_op (c : call (K := K) (T := T)) : option (op (K := K)) :=
  match c with
  | CallSubscribe keys ch => Some (OpSubscribe keys ch)
  | CallUnsubscribe keys ch => Some (OpUnsubscribe keys ch)
  | CallPublish _ _ _ _ => None
  end.

Definition keys_of (c : call (K := K) (T := T)) : list K :=
  match c with
  | CallSubscribe keys _ | CallUnsubscribe keys _ => keys
  | CallPublish _ _ _ _ => []
  end.

(** The write calls issued by the goroutines [order], in that order. *)
Definition ops_of (calls : list (call (K := K) (T := T))) (order : list nat)
  : list (op (K := K)) :=
  omap (λ i, calls !! i ≫= to_op) order.

(** Goroutine [i] ran a write call and that call is over. *)
Definition committed (s : system (K := K) (T := T)) (i : nat) : Prop :=
  ∃ c res, goroutines s !! i = Some (c, Done res) ∧ is_Some (to_op c).

Definition serialized (calls : list (call (K := K) (T := T)))
  (index0 : gmap K (gset chan)) (s : system (K := K) (T := T))
  (order : list nat) : Prop :=
  NoDup order
  ∧ (∀ i, i ∈ order ↔ committed s i)
  ∧ (∀ i c todo, goroutines s !! i = Some (c, InWrite todo) →
       is_Some (to_op c)
       ∧ ∃ done, keys_of c = done ++ todo
           ∧ subscribers (ps s)
             = foldl (mutation c) (apply_ops (ops_of calls order) index0) done)
  ∧ ((∀ i c p, goroutines s !! i = Some (c, p) → holds_write p = false) →
     subscribers (ps s) = apply_ops (ops_of calls order) index0).

End serial.
End Serial.

(** ** The registry of the documentation's example

    Endpoints [chA] and [chB] are subscribed to ["topic1"], [chA] also to
    ["topic2"].  In [demo_world] both can accept: [chA] is unbuffered with a
    reader parked on it, [chB] has a buffer of ten.  In [stalled_world] [chB]
    has room for one message and [chA] is unbuffered with nobody reading. *)

Definition chA : chan := 1%positive.
Definition chB : chan := 2%positive.

Definition demo_index : gmap string (gset chan) :=
  Subscribe ["topic1"] chB (Subscribe ["topic1"; "topic2"] chA New).

Definition demo_world : world (T := string) :=
  World 0 (<[chA := Hchan 0 [] 1 false []]> (<[chB := Hchan 10 [] 0 false []]> ∅)).

Definition stalled_world : world (T := string) :=
  World 0 (<[chA := Hchan 0 [] 0 false []]> (<[chB := Hchan 1 [] 0 false []]> ∅)).

(** Three goroutines on the registry of the example: a batch subscription, a
    publication and an unsubscription. *)
Definition demo_calls : list (Concurrent.call (K := string) (T := string)) :=
  [ Concurrent.CallSubscribe ["topic1"; "topic2"] chA;
    Concurrent.CallPublish elements Background "topic1" "msg";
    Concurrent.CallUnsubscribe ["topic1"] chB ].

(** The registry of [Example_contextAwarePublishing]: one subscriber of
    ["alerts"] with a buffer of two; and a world in which [chA] has been
    closed while still subscribed. *)
Definition alerts_index : gmap string (gset chan) :=
  Subscribe ["alerts"] chA New.

Definition alerts_world : world (T := string) :=
  World 0 (<[chA := Hchan 2 [] 0 false []]> ∅).

Definition closed_world : world (T := string) :=
  World 0 (<[chA := Hchan 0 [] 0 true []]> (<[chB := Hchan 10 [] 0 false []]> ∅)).

(** An interleaving of [demo_calls] in which the unsubscription gets the lock
    first, the others wait, and the subscription and the publication follow. *)
Definition demo_schedule : list Concurrent.sched :=
  [ Concurrent.Go 2 true; Concurrent.Go 0 true; Concurrent.Go 2 true;
    Concurrent.Go 1 true; Concurrent.Go 2 true; Concurrent.Go 0 true;
    Concurrent.Go 0 true; Concurrent.Go 1 true; Concurrent.Go 0 true;
    Concurrent.Go 0 true ].


(** ** The index and its two mutations *)

Section registry_facts.
Context {K : Type} {EqK : EqDecision K} {CountK : Countable K}.
Implicit Types (m : gmap K (gset chan)) (ch : chan) (keys : list K).

Lemma Subscribe1_lookup ch m key k :
  Subscribe1 ch m key !! k =
    if decide (k = key) then Some ({[ch]} ∪ subs_of m key) else m !! k.
Proof.
  unfold Subscribe1, subs_of.
  destruct (m !! key) as [s|] eqn:E; case_decide; simplify_map_eq; done.
Qed.

Lemma Subscribe_lookup keys ch m k :
  Subscribe keys ch m !! k =
    if decide (k ∈ keys) then Some ({[ch]} ∪ subs_of m k) else m !! k.
Proof.
  unfold Subscribe. revert m.
  induction keys as [|key keys IH]; intros m; cbn [foldl].
  - destruct (decide (k ∈ [])) as [Hin|]; [by apply elem_of_nil in Hin | done].
  - rewrite IH. unfold subs_of. rewrite !Subscribe1_lookup.
    destruct (decide (k = key)) as [->|Hne].
    + rewrite (decide_True (P := key ∈ key :: keys)) by apply list_elem_of_here.
      destruct (decide (key ∈ keys)); simpl; [|done].
      f_equal. by rewrite (assoc_L (∪)), (idemp_L (∪)).
    + destruct (decide (k ∈ keys)).
      * rewrite decide_True by (by apply list_elem_of_further). done.
      * rewrite decide_False by (by apply not_elem_of_cons). done.
Qed.

Lemma without_idemp ch e : without ch (without ch e) = without ch e.
Proof.
  destruct e as [s|]; simpl; [|done].
  case_decide; simpl; [done|].
  assert (s ∖ {[ch]} ∖ {[ch]} = s ∖ {[ch]}) as ->.
  { apply leibniz_equiv, difference_disjoint, disjoint_singleton_r.
    rewrite elem_of_difference, elem_of_singleton. tauto. }
  rewrite decide_False; done.
Qed.

Lemma Unsubscribe1_lookup ch m key k :
  Unsubscribe1 ch m key !! k =
    if decide (k = key) then without ch (m !! k) else m !! k.
Proof.
  unfold Unsubscribe1, without.
  destruct (decide (k = key)) as [->|Hne].
  - destruct (m !! key) as [s|] eqn:E; [|done].
    destruct (decide (size (s ∖ {[ch]}) = 0%nat)) as [Hz|Hnz].
    + apply size_empty_inv in Hz. apply leibniz_equiv in Hz.
      rewrite decide_True by done. by rewrite lookup_delete_eq.
    + rewrite decide_False.
      * by rewrite lookup_insert_eq.
      * intros Hs. apply Hnz. rewrite Hs. apply size_empty.
  - destruct (m !! key) as [s|] eqn:E; [|done].
    case_decide.
    + by rewrite lookup_delete_ne.
    + by rewrite lookup_insert_ne.
Qed.

Lemma Unsubscribe_lookup keys ch m k :
  Unsubscribe keys ch m !! k =
    if decide (k ∈ keys) then without ch (m !! k) else m !! k.
Proof.
  unfold Unsubscribe. revert m.
  induction keys as [|key keys IH]; intros m; cbn [foldl].
  - destruct (decide (k ∈ [])) as [Hin|]; [by apply elem_of_nil in Hin | done].
  - rewrite IH, Unsubscribe1_lookup.
    destruct (decide (k = key)) as [->|Hne].
    + rewrite (decide_True (P := key ∈ key :: keys)) by apply list_elem_of_here.
      destruct (decide (key ∈ keys)); [apply without_idemp | done].
    + destruct (decide (k ∈ keys)).
      * rewrite decide_True by (by apply list_elem_of_further). done.
      * rewrite decide_False by (by apply not_elem_of_cons). done.
Qed.


Lemma subs_of_Subscribe keys ch m k :
  subs_of (Subscribe keys ch m) k =
    if decide (k ∈ keys) then {[ch]} ∪ subs_of m k else subs_of m k.
Proof.
  unfold subs_of at 1. rewrite Subscribe_lookup.
  destruct (decide (k ∈ keys)); done.
Qed.

Lemma subs_of_without ch (e : option (gset chan)) :
  default ∅ (without ch e) = default ∅ e ∖ {[ch]}.
Proof.
  destruct e as [s|]; simpl.
  - destruct (decide (s ∖ {[ch]} = ∅)) as [->|]; done.
  - symmetry. apply leibniz_equiv, difference_disjoint. apply disjoint_empty_l.
Qed.

Lemma subs_of_Unsubscribe keys ch m k :
  subs_of (Unsubscribe keys ch m) k =
    if decide (k ∈ keys) then subs_of m k ∖ {[ch]} else subs_of m k.
Proof.
  unfold subs_of at 1. rewrite Unsubscribe_lookup.
  destruct (decide (k ∈ keys)); [apply subs_of_without | done].
Qed.

Lemma index_inv_alt m :
  index_inv m ↔ ∀ k, m !! k ≠ Some ∅.
Proof.
  unfold index_inv, subs_of. split; intros Hi k.
  - intros E. destruct (Hi k) as [Hk _]. rewrite E in Hk.
    by apply Hk.
  - destruct (m !! k) as [s|] eqn:E; simpl.
    + split; [|by eauto]. intros _ ->. by apply (Hi k).
    + split; [intros [? ?]; done | done].
Qed.

Lemma index_inv_New : index_inv (New (K := K)).
Proof. apply index_inv_alt. intros k. unfold New. by rewrite lookup_empty. Qed.

Lemma index_inv_Subscribe keys ch m :
  index_inv m → index_inv (Subscribe keys ch m).
Proof.
  rewrite !index_inv_alt. intros Hi k. rewrite Subscribe_lookup.
  destruct (decide (k ∈ keys)); [|apply Hi].
  intros [= E]. apply (not_elem_of_empty (C := gset chan) ch).
  rewrite <- E. apply elem_of_union_l, elem_of_singleton. done.
Qed.

Lemma index_inv_Unsubscribe keys ch m :
  index_inv m → index_inv (Unsubscribe keys ch m).
Proof.
  rewrite !index_inv_alt. intros Hi k. rewrite Unsubscribe_lookup.
  destruct (decide (k ∈ keys)); [|apply Hi].
  destruct (m !! k) as [s|]; simpl; [|done].
  destruct (decide (s ∖ {[ch]} = ∅)); [done|congruence].
Qed.

Lemma reachable_index_inv m : reachable m → index_inv m.
Proof.
  induction 1;
    auto using index_inv_New, index_inv_Subscribe, index_inv_Unsubscribe.
Qed.

Lemma without_absent ch (e : option (gset chan)) :
  e ≠ Some ∅ → ch ∉ default ∅ e → without ch e = e.
Proof.
  destruct e as [s|]; simpl; [|done]. intros Hne Hch.
  assert (s ∖ {[ch]} = s) as ->.
  { apply leibniz_equiv, difference_disjoint, disjoint_singleton_r. done. }
  destruct (decide (s = ∅)); congruence.
Qed.

(** C4. Subscribing the same endpoint to the same key a second time changes
    nothing: the state equals the one after the first call, in which the
    key's set lists the endpoint once; one Unsubscribe with that key and
    endpoint then leaves the endpoint out of the key's subscribers. *)
Theorem Subscribe_idempotent m (key : K) ch :
  Subscribe [key] ch (Subscribe [key] ch m) = Subscribe [key] ch m
  ∧ (∃ subs, Subscribe [key] ch (Subscribe [key] ch m) !! key = Some subs
       ∧ length (filter (λ c, c = ch) (elements subs)) = 1%nat)
  ∧ ch ∉ subs_of (Unsubscribe [key] ch (Subscribe [key] ch (Subscribe [key] ch m))) key.
Proof.
  assert (Subscribe [key] ch (Subscribe [key] ch m) = Subscribe [key] ch m)
    as Hid.
  { apply map_eq. intros k. rewrite !Subscribe_lookup, subs_of_Subscribe.
    destruct (decide (k ∈ [key])); [|done].
    f_equal. apply leibniz_equiv. rewrite (assoc_L (∪)).
    by rewrite (idemp_L (∪)). }
  split; [done|]. split.
  - rewrite Hid, Subscribe_lookup.
    rewrite decide_True by apply list_elem_of_here.
    eexists; split; [done|].
    assert (filter (λ c, c = ch) (elements ({[ch]} ∪ subs_of m key)) ≡ₚ [ch])
      as ->; [|done].
    apply NoDup_Permutation.
    + apply NoDup_filter, NoDup_elements.
    + apply NoDup_singleton.
    + intros c. rewrite list_elem_of_filter, elem_of_elements,
        list_elem_of_singleton, elem_of_union, elem_of_singleton.
      tauto.
  - rewrite subs_of_Unsubscribe.
    rewrite decide_True by apply list_elem_of_here.
    rewrite elem_of_difference, elem_of_singleton. tauto.
Qed.

(** C6. On a registry state (one built by New, Subscribe and Unsubscribe),
    Unsubscribe leaves the entry of a key alone when the endpoint is not
    among its subscribers or the key has no entry; and for every key the
    only change is that the endpoint is gone from the keys visited, an entry
    being dropped exactly when that leaves its set empty. *)
Theorem Unsubscribe_frame m keys ch (k : K) :
  reachable m →
  (ch ∉ subs_of m k → Unsubscribe keys ch m !! k = m !! k)
  ∧ (k ∉ keys → Unsubscribe keys ch m !! k = m !! k)
  ∧ (k ∈ keys → subs_of (Unsubscribe keys ch m) k = subs_of m k ∖ {[ch]})
  ∧ (∀ c, c ≠ ch →
       (c ∈ subs_of (Unsubscribe keys ch m) k ↔ c ∈ subs_of m k))
  ∧ (Unsubscribe keys ch m !! k = None ↔
       m !! k = None ∨ (k ∈ keys ∧ subs_of m k ∖ {[ch]} = ∅)).
Proof.
  intros Hr'. pose proof (proj1 (index_inv_alt m) (reachable_index_inv m Hr')) as Hr.
  repeat split.
  - intros Hch. rewrite Unsubscribe_lookup.
    destruct (decide (k ∈ keys)); [|done].
    apply without_absent; [apply Hr | done].
  - intros Hk. rewrite Unsubscribe_lookup. by rewrite decide_False.
  - intros Hk. rewrite subs_of_Unsubscribe. by rewrite decide_True.
  - rewrite subs_of_Unsubscribe. destruct (decide (k ∈ keys)); [|done].
    rewrite elem_of_difference. tauto.
  - rewrite subs_of_Unsubscribe. destruct (decide (k ∈ keys)); [|done].
    rewrite elem_of_difference, elem_of_singleton. tauto.
  - rewrite Unsubscribe_lookup. unfold subs_of.
    destruct (decide (k ∈ keys)); [|tauto].
    destruct (m !! k) as [s|]; simpl; [|tauto].
    destruct (decide (s ∖ {[ch]} = ∅)); [tauto | done].
  - rewrite Unsubscribe_lookup. unfold subs_of.
    destruct (decide (k ∈ keys)); [|intros [?|[? _]]; done].
    intros [->|[_ Hs]]; [done|].
    destruct (m !! k) as [s|]; simpl in *; [|done].
    rewrite decide_True; done.
Qed.

End registry_facts.

(** ** The delivery loop *)

Section delivery_facts.
Context {K : Type} {EqK : EqDecision K} {CountK : Countable K} {T : Type}.
Implicit Types (w : world (T := T)) (c : hchan (T := T)) (ch : chan)
  (todo sent rest : list chan) (st : pstate) (trace : list (action))
  (ctx : Ctx) (msg : T).

Lemma Err_mono ctx t t' e : Err ctx t = Some e → t ≤ t' → Err ctx t' = Some e.
Proof.
  destruct ctx as [|t0 e0]; simpl; [done|].
  destruct (decide (t0 ≤ t)); [|done]. intros [= ->] Hle.
  rewrite decide_True by lia. done.
Qed.

Lemma Err_cause ctx t e : Err ctx t = Some e → ∃ t0, ctx = DoneAt t0 e ∧ t0 ≤ t.
Proof.
  destruct ctx as [|t0 e0]; simpl; [done|].
  destruct (decide (t0 ≤ t)); [|done]. intros [= ->]. eauto.
Qed.

Lemma inbox_chanrecv c : got (chanrecv c) ++ buf (chanrecv c) = got c ++ buf c.
Proof.
  unfold chanrecv. destruct (buf c) as [|m rest] eqn:E; simpl.
  - destruct (closed c); simpl; rewrite ?E; done.
  - by rewrite <- app_assoc.
Qed.

Lemma inbox_env_step a w ch : inbox (env_step a w) ch = inbox w ch.
Proof.
  destruct a as [|ch0|b]; simpl; [done| |done].
  destruct (heap w !! ch0) as [c|] eqn:E; [|done].
  unfold inbox; simpl. destruct (decide (ch = ch0)) as [->|Hne].
  - rewrite lookup_insert_eq, E. apply inbox_chanrecv.
  - by rewrite lookup_insert_ne.
Qed.

Lemma now_env_step a w : now w ≤ now (env_step a w).
Proof.
  destruct a as [|ch0|b]; simpl; [lia| |lia].
  destruct (heap w !! ch0); simpl; lia.
Qed.

Lemma inbox_chansend msg c c' :
  chansend msg c = Some c' → got c' ++ buf c' ≡ₚ msg :: (got c ++ buf c).
Proof.
  unfold chansend. destruct (closed c); [done|].
  destruct (0 <? recvq c)%nat; intros [= <-]; simpl.
  - rewrite <- app_assoc. simpl. symmetry. apply Permutation_middle.
  - rewrite app_assoc. symmetry. apply Permutation_cons_append.
Qed.

Lemma send_case_inv msg w ch rest n w' st :
  send_case msg w ch rest n = (w', st) →
  (st = Panicked ∧ w' = w)
  ∨ (st = loop rest (S n) ∧ now w' = now w
     ∧ inbox w' ch ≡ₚ msg :: inbox w ch
     ∧ ∀ ch', ch' ≠ ch → heap w' !! ch' = heap w !! ch').
Proof.
  unfold send_case.
  destruct (heap w !! ch) as [c|] eqn:E; simpl; [|intros [= <- <-]; by left].
  destruct (chansend msg c) as [c'|] eqn:Es; intros [= <- <-]; [|by left].
  right. repeat split; simpl.
  - unfold inbox; simpl. rewrite lookup_insert_eq, E.
    by apply inbox_chansend.
  - intros ch' Hne. by rewrite lookup_insert_ne.
Qed.

Lemma inbox_heap w w' ch : heap w' !! ch = heap w !! ch → inbox w' ch = inbox w ch.
Proof. unfold inbox. by intros ->. Qed.

Lemma progress_loop msg w0 todo0 w sent rest :
  todo0 = sent ++ rest → delivered_to msg w0 w sent →
  progress msg w0 todo0 (w, loop rest (length sent)).
Proof.
  intros Ht Hd. unfold progress, loop. destruct rest as [|ch rest]; simpl.
  - exists sent, []. done.
  - exists sent. done.
Qed.

Lemma delivered_to_snoc msg w0 w w' sent ch :
  ch ∉ sent →
  delivered_to msg w0 w sent →
  inbox w' ch ≡ₚ msg :: inbox w ch →
  (∀ ch', ch' ≠ ch → heap w' !! ch' = heap w !! ch') →
  delivered_to msg w0 w' (sent ++ [ch]).
Proof.
  intros Hch [Hin Hout] Hp Hother. split; intros c0.
  - rewrite elem_of_app, list_elem_of_singleton. intros [Hs| ->].
    + rewrite (inbox_heap w w') by (apply Hother; congruence). by apply Hin.
    + rewrite Hp. by rewrite (Hout ch).
  - rewrite elem_of_app, list_elem_of_singleton. intros Hn.
    rewrite (inbox_heap w w') by (apply Hother; tauto). apply Hout. tauto.
Qed.

Lemma delivered_to_env msg w0 w sent a :
  delivered_to msg w0 w sent → delivered_to msg w0 (env_step a w) sent.
Proof.
  intros [Hin Hout]. split; intros ch ?; rewrite inbox_env_step; auto.
Qed.

Lemma step_progress ctx msg w0 todo0 cfg a :
  NoDup todo0 →
  progress msg w0 todo0 cfg → progress msg w0 todo0 (step ctx msg cfg a).
Proof.
  intros Hnd. destruct cfg as [w st]. unfold step; simpl.
  destruct st as [[|ch rest] n|n err|]; try done.
  { intros (sent & _ & Hne & _). done. }
  intros (sent & Ht & _ & -> & Hd). simpl in Hd.
  assert (∀ e, progress msg w0 todo0 (w, Returned (length sent) (Some e)))
    as Hret.
  { intros e. exists sent, (ch :: rest).
    split; [done|]. split; [done|]. split; [by split|done]. }
  assert (∀ w' st', send_case msg w ch rest (length sent) = (w', st') →
                    progress msg w0 todo0 (w', st')) as Hsend.
  { intros w' st' Hs. apply send_case_inv in Hs
      as [[-> ->]|(-> & _ & Hp & Hother)]; [done|].
    replace (S (length sent)) with (length (sent ++ [ch]))
      by (rewrite length_app; simpl; lia).
    apply progress_loop.
    - by rewrite <- app_assoc.
    - eapply delivered_to_snoc; eauto.
      subst todo0. apply NoDup_app in Hnd as (_ & Hdis & _).
      intros Hin. apply (Hdis ch Hin). apply list_elem_of_here. }
  destruct a as [|ch0|pick]; simpl.
  - exists sent. repeat split; try done; apply Hd.
  - exists sent. split; [done|]. split; [done|]. split; [done|].
    by apply (delivered_to_env _ _ _ _ (Recv ch0)).
  - unfold select.
    destruct (send_ready w ch), (Err ctx (now w)) as [e|]; simpl.
    + destruct pick; [|apply Hret].
      destruct (send_case msg w ch rest (length sent)) eqn:Hs. by eapply Hsend.
    + destruct (send_case msg w ch rest (length sent)) eqn:Hs. by eapply Hsend.
    + apply Hret.
    + exists sent. done.
Qed.

Lemma run_progress ctx msg w0 todo0 trace cfg :
  NoDup todo0 →
  progress msg w0 todo0 cfg → progress msg w0 todo0 (run ctx msg trace cfg).
Proof.
  intros Hnd. unfold run. revert cfg.
  induction trace as [|a trace IH]; intros cfg Hp; simpl; [done|].
  apply IH. by apply step_progress.
Qed.

Lemma progress_init msg w0 todo0 : progress msg w0 todo0 (w0, loop todo0 0).
Proof.
  apply (progress_loop msg w0 todo0 w0 [] todo0); [done|].
  split; [intros ch Hin; by apply elem_of_nil in Hin | done].
Qed.

End delivery_facts.

Section publish_facts.
Context {K : Type} {EqK : EqDecision K} {CountK : Countable K} {T : Type}.
Implicit Types (w : world (T := T)) (c : hchan (T := T)) (ch : chan)
  (todo sent rest : list chan) (st : pstate) (trace : list (action))
  (ctx : Ctx) (msg : T) (subscribers : gmap K (gset chan)) (key : K).

(** [range] visits every element of the set once, in some order. *)
Variable iter : gset chan → list chan.
Hypothesis iter_perm : ∀ s, iter s ≡ₚ elements s.

Lemma iter_NoDup s : NoDup (iter s).
Proof. rewrite iter_perm. apply NoDup_elements. Qed.

Lemma iter_length s : length (iter s) = size s.
Proof. by rewrite iter_perm. Qed.

Lemma elem_of_iter s ch : ch ∈ iter s ↔ ch ∈ s.
Proof. rewrite iter_perm. apply elem_of_elements. Qed.

Lemma run_cons ctx msg a trace (cfg : world * pstate) :
  run ctx msg (a :: trace) cfg = run ctx msg trace (step ctx msg cfg a).
Proof. done. Qed.

Lemma run_app ctx msg t1 t2 (cfg : world * pstate) :
  run ctx msg (t1 ++ t2) cfg = run ctx msg t2 (run ctx msg t1 cfg).
Proof. apply foldl_app. Qed.

Lemma run_Returned ctx msg trace w n err :
  run ctx msg trace (w, Returned n err) = (w, Returned n err).
Proof. induction trace as [|a trace IH]; [done|]. apply IH. Qed.

Lemma run_env ctx msg envs w ch rest n :
  runs envs = 0%nat →
  run ctx msg envs (w, Running (ch :: rest) n)
    = (env_run envs w, Running (ch :: rest) n).
Proof.
  revert w. induction envs as [|a envs IH]; intros w Hr; [done|].
  destruct a as [|ch0|b]; simpl in Hr; [| |done];
    rewrite run_cons; apply IH, Hr.
Qed.

Lemma env_run_now envs w : now w ≤ now (env_run envs w).
Proof.
  revert w. induction envs as [|a envs IH]; intros w; [done|].
  unfold env_run; simpl. etrans; [apply (now_env_step a)|apply IH].
Qed.

Lemma run_ext ctx ctx' msg trace (cfg : world * pstate) :
  (∀ t, Err ctx t = Err ctx' t) → run ctx msg trace cfg = run ctx' msg trace cfg.
Proof.
  intros He. revert cfg. induction trace as [|a trace IH]; intros cfg; [done|].
  rewrite !run_cons, IH. f_equal. destruct cfg as [w [[|ch rest] n| |]]; try done.
  destruct a; try done. unfold step, select; simpl. by rewrite He.
Qed.

Lemma accepts_env_step a w ch : accepts w ch → accepts (env_step a w) ch.
Proof.
  intros (c & Hc & Hcl & Hroom). destruct a as [|ch0|b]; simpl;
    [by exists c | | by exists c].
  destruct (heap w !! ch0) as [c0|] eqn:E; [|by exists c].
  destruct (decide (ch = ch0)) as [->|Hne].
  - exists (chanrecv c0). simpl. rewrite lookup_insert_eq.
    split; [done|]. rewrite E in Hc. injection Hc as ->.
    unfold chanrecv. destruct (buf c) as [|m rest] eqn:Eb; simpl.
    + rewrite Hcl. simpl. split; [done|]. left. lia.
    + split; [done|]. destruct Hroom as [?|Hroom]; [by left|right].
      simpl in Hroom. lia.
  - exists c. simpl. by rewrite lookup_insert_ne.
Qed.

Lemma accepts_send_case msg w ch rest n :
  accepts w ch →
  ∃ w', send_case msg w ch rest n = (w', loop rest (S n))
        ∧ ∀ ch', ch' ≠ ch → accepts w ch' → accepts w' ch'.
Proof.
  intros (c & Hc & Hcl & Hroom). unfold send_case. rewrite Hc. simpl.
  unfold chansend. rewrite Hcl.
  destruct (0 <? recvq c)%nat; (eexists; split; [done|]);
    intros ch' Hne (c' & Hc' & ?); exists c'; simpl;
    by rewrite lookup_insert_ne.
Qed.

Lemma accepts_send_ready w ch : accepts w ch → send_ready w ch = true.
Proof.
  intros (c & Hc & Hcl & Hroom). unfold send_ready, can_send.
  rewrite Hc, Hcl. simpl. apply orb_true_iff.
  destruct Hroom; [left|right]; by apply Nat.ltb_lt.
Qed.

(** With every remaining endpoint able to accept and a context that stays
    silent, each scheduling of the goroutine serves one endpoint. *)
Lemma run_all_ready ctx msg trace w todo n :
  (∀ t, Err ctx t = None) →
  NoDup todo →
  (∀ ch, ch ∈ todo → accepts w ch) →
  (length todo ≤ runs trace)%nat →
  (run ctx msg trace (w, loop todo n)).2 = Returned (n + length todo) None.
Proof.
  intros Hctx. revert w todo n.
  induction trace as [|a trace IH]; intros w todo n Hnd Hacc Hlen.
  - destruct todo; simpl in *; [|lia]. by rewrite Nat.add_0_r.
  - destruct todo as [|ch rest].
    { unfold loop. rewrite run_Returned. simpl. by rewrite Nat.add_0_r. }
    apply NoDup_cons in Hnd as [Hch Hnd].
    rewrite run_cons.
    destruct a as [|ch0|pick]; unfold step; simpl.
    + apply (IH _ (ch :: rest) n).
      * by apply NoDup_cons.
      * intros ch' Hin. by apply (accepts_env_step Tick), Hacc.
      * done.
    + apply (IH _ (ch :: rest) n).
      * by apply NoDup_cons.
      * intros ch' Hin. by apply (accepts_env_step (Recv ch0)), Hacc.
      * done.
    + unfold select. rewrite accepts_send_ready, Hctx
        by apply Hacc, list_elem_of_here.
      destruct (accepts_send_case msg w ch rest n) as (w' & -> & Hrest).
      { apply Hacc, list_elem_of_here. }
      rewrite IH; [f_equal; simpl; lia|done| |simpl in Hlen; lia].
      intros ch' Hin. apply Hrest; [intros ->; done|].
      apply Hacc. by apply list_elem_of_further.
Qed.

Lemma inbox_env_run envs w ch : inbox (env_run envs w) ch = inbox w ch.
Proof.
  revert w. induction envs as [|a envs IH]; intros w; [done|].
  unfold env_run; simpl. fold (env_run envs (env_step a w)).
  by rewrite IH, inbox_env_step.
Qed.

Lemma Publish_progress ctx key msg trace subscribers w subs :
  subscribers !! key = Some subs →
  progress msg w (iter subs) (Publish iter ctx key msg trace subscribers w).2.
Proof.
  intros Hs. unfold Publish. rewrite Hs. simpl.
  apply run_progress; [apply iter_NoDup | apply progress_init].
Qed.

(** C1. When the key has the subscriber set [subs], the context never fires
    and every subscribed endpoint can accept, then, as soon as the schedule
    lets the call run once per endpoint, Publish returns [(size subs, nil)];
    each subscribed endpoint has taken the message exactly once and no other
    endpoint has taken anything. *)
Theorem Publish_fanout_complete ctx key msg trace subscribers w subs :
  subscribers !! key = Some subs →
  (∀ t, Err ctx t = None) →
  (∀ ch, ch ∈ subs → accepts w ch) →
  (size subs ≤ runs trace)%nat →
  ∃ w', Publish iter ctx key msg trace subscribers w
          = (subscribers, (w', Returned (size subs) None))
        ∧ (∀ ch, ch ∈ subs → inbox w' ch ≡ₚ msg :: inbox w ch)
        ∧ (∀ ch, ch ∉ subs → inbox w' ch = inbox w ch).
Proof.
  intros Hs Hctx Hacc Hlen.
  pose proof (Publish_progress ctx key msg trace subscribers w subs Hs) as Hp.
  unfold Publish in *. rewrite Hs in *. simpl in Hp.
  assert ((run ctx msg trace (w, loop (iter subs) 0)).2
          = Returned (size subs) None) as Hrun.
  { rewrite <- (iter_length subs). apply (run_all_ready ctx msg trace w _ 0).
    - done.
    - apply iter_NoDup.
    - intros ch Hch. by apply Hacc, elem_of_iter.
    - by rewrite iter_length. }
  destruct (run ctx msg trace (w, loop (iter subs) 0)) as [w' st].
  simpl in Hrun. subst st.
  exists w'. split; [done|].
  destruct Hp as (sent & rest & Hi & _ & Hnil & Hin & Hout).
  rewrite (proj1 Hnil eq_refl), app_nil_r in Hi. subst sent. simpl in *.
  split; intros ch Hch.
  - by apply Hin, elem_of_iter.
  - apply Hout. by rewrite elem_of_iter.
Qed.

(** C2, amended. When the call stands at the hand-off to endpoint [ch] with
    [k] endpoints served, the context is done with error [e] by the time the
    goroutine next runs, and at that moment [ch] cannot accept (or [select],
    finding both cases ready, takes the cancellation one), Publish returns
    [(k, e)] with [k] below the number of subscribers, [e] being the cause
    the context carries, and neither [ch] nor any endpoint after it has
    taken anything. *)
Theorem Publish_partial_delivery ctx key msg subscribers w subs
    t1 envs pick t3 w1 ch rest k e :
  subscribers !! key = Some subs →
  run ctx msg t1 (w, loop (iter subs) 0) = (w1, Running (ch :: rest) k) →
  runs envs = 0%nat →
  Err ctx (now (env_run envs w1)) = Some e →
  send_ready (env_run envs w1) ch = false ∨ pick = false →
  ∃ w', Publish iter ctx key msg (t1 ++ envs ++ Run pick :: t3) subscribers w
          = (subscribers, (w', Returned k (Some e)))
        ∧ (k < size subs)%nat
        ∧ length (ch :: rest) = (size subs - k)%nat
        ∧ (∃ t0, ctx = DoneAt t0 e)
        ∧ (∀ ch', ch' ∈ ch :: rest → inbox w' ch' = inbox w ch').
Proof.
  intros Hs Hpre Henv Hfired Hsel.
  pose proof (run_progress ctx msg w (iter subs) t1 _ (iter_NoDup subs)
                (progress_init msg w (iter subs))) as Hp.
  rewrite Hpre in Hp. destruct Hp as (sent & Hi & _ & -> & _ & Hout).
  simpl in Hout.
  pose proof (iter_length subs) as Hlen. rewrite Hi, length_app in Hlen.
  simpl in Hlen.
  exists (env_run envs w1).
  split; [|split; [lia|split; [simpl; lia|split]]].
  - unfold Publish. rewrite Hs. f_equal.
    rewrite run_app, Hpre, run_app, run_env, run_cons by done.
    unfold step, select; simpl. rewrite Hfired.
    destruct Hsel as [-> | ->]; [apply run_Returned|].
    destruct (send_ready _ _); apply run_Returned.
  - apply Err_cause in Hfired as (t0 & -> & _). by exists t0.
  - intros ch' Hc'. rewrite inbox_env_run. apply Hout.
    pose proof (iter_NoDup subs) as Hnd. rewrite Hi in Hnd.
    apply NoDup_app in Hnd as (_ & Hdis & _).
    intros Hin. by apply (Hdis ch' Hin).
Qed.

(** C3. For a key without an entry, Publish returns [(0, nil)] at once, for
    any context, fired or not, and leaves the world as it is. *)
Theorem Publish_unknown_key ctx key msg trace subscribers w :
  subscribers !! key = None →
  Publish iter ctx key msg trace subscribers w
    = (subscribers, (w, Returned 0 None)).
Proof. intros Hs. unfold Publish. by rewrite Hs. Qed.

(** C9. Whenever Publish returns, its error is nil exactly when the count
    equals the number of endpoints subscribed to the key (none for a key
    without entry), and non-nil exactly when the count is below it. *)
Theorem Publish_error_iff_short ctx key msg trace subscribers w
    subscribers' w' n err :
  Publish iter ctx key msg trace subscribers w
    = (subscribers', (w', Returned n err)) →
  (err = None ↔ n = size (subs_of subscribers key))
  ∧ (err ≠ None ↔ (n < size (subs_of subscribers key))%nat).
Proof.
  intros Hpub.
  destruct (subscribers !! key) as [subs|] eqn:Hs.
  - assert (subs_of subscribers key = subs) as ->
      by (unfold subs_of; by rewrite Hs).
    pose proof (Publish_progress ctx key msg trace subscribers w subs Hs)
      as Hp.
    rewrite Hpub in Hp. destruct Hp as (sent & rest & Hi & -> & Hnil & _).
    pose proof (iter_length subs) as Hlen. rewrite Hi, length_app in Hlen.
    assert (rest = [] ↔ length rest = 0%nat) as Hr
      by (destruct rest; simpl; split; (done || lia)).
    split; rewrite Hnil, Hr; lia.
  - assert (subs_of subscribers key = ∅) as ->
      by (unfold subs_of; by rewrite Hs).
    unfold Publish in Hpub. rewrite Hs in Hpub.
    injection Hpub as _ _ <- <-. rewrite size_empty. split; [done|].
    split; [done|lia].
Qed.

(** C10. Publish hands back the index it was given, whatever the key, the
    message, the context and the schedule, and whether it returned, found no
    key, panicked or is still blocked; and none of the steps of the call
    (RLock, lookup, select, RUnlock) changes the index. *)
Theorem Publish_index_unchanged ctx key msg trace subscribers w :
  (Publish iter ctx key msg trace subscribers w).1 = subscribers
  ∧ (∀ p pick_send (r : Concurrent.PubSub) w0 p' r' w',
       Concurrent.publish_step iter ctx key msg p pick_send r w0
         = Some (p', r', w') →
       Concurrent.subscribers r' = Concurrent.subscribers r).
Proof.
  split.
  - unfold Publish. by destruct (subscribers !! key).
  - intros p pick_send r w0 p' r' w'. unfold Concurrent.publish_step.
    destruct p as [|todo| |st|res]; try done.
    + destruct (Concurrent.writer _); [done|]. by intros [= <- <- <-].
    + destruct (Concurrent.subscribers r !! key); by intros [= <- <- <-].
    + destruct st as [[|ch rest] n|n e|]; try by intros [= <- <- <-].
      destruct (select ctx msg pick_send w0 ch rest n). by intros [= <- <- <-].
Qed.

(** C5. The index invariant (a key has an entry exactly when its subscriber
    set is not empty) holds for New and is kept by Subscribe and by
    Unsubscribe; when the only subscriber of a key unsubscribes, the key has
    no entry any more and Publish to it returns [(0, nil)]. *)
Theorem index_invariant :
  index_inv (New (K := K))
  ∧ (∀ keys ch subscribers,
       index_inv subscribers → index_inv (Subscribe keys ch subscribers))
  ∧ (∀ keys ch subscribers,
       index_inv subscribers → index_inv (Unsubscribe keys ch subscribers))
  ∧ (∀ keys ch subscribers key ctx msg trace w,
       key ∈ keys → subs_of subscribers key = {[ch]} →
       Unsubscribe keys ch subscribers !! key = None
       ∧ Publish iter ctx key msg trace (Unsubscribe keys ch subscribers) w
           = (Unsubscribe keys ch subscribers, (w, Returned 0 None))).
Proof.
  split; [apply index_inv_New|].
  split; [apply index_inv_Subscribe|].
  split; [apply index_inv_Unsubscribe|].
  intros keys ch subscribers key ctx msg trace w Hk Hsub.
  assert (Unsubscribe keys ch subscribers !! key = None) as Hnone.
  { rewrite Unsubscribe_lookup, decide_True by done.
    unfold subs_of in Hsub. destruct (subscribers !! key) as [s|]; [|done].
    simpl in *. subst s. rewrite decide_True; [done|].
    apply leibniz_equiv, difference_diag. }
  split; [done|]. unfold Publish. by rewrite Hnone.
Qed.

(** C7. PublishWithTimeout returns what Publish returns for a context that
    fires (with DeadlineExceeded) once the duration has elapsed from the
    start of the call. *)
Theorem PublishWithTimeout_refines key msg timeout trace subscribers w ctx :
  fires_after (now w) timeout ctx →
  PublishWithTimeout iter key msg timeout trace subscribers w
    = Publish iter ctx key msg trace subscribers w.
Proof.
  intros Hf. unfold PublishWithTimeout, Publish.
  destruct (subscribers !! key) as [subs|]; [|done]. f_equal.
  apply run_ext. intros t. by rewrite Hf.
Qed.

End publish_facts.

(** ** The properties at the documentation's example *)

Lemma elements_perm (s : gset chan) : elements s ≡ₚ elements s.
Proof. done. Qed.

Lemma demo_index_topic1 : demo_index !! "topic1" = Some ({[chA; chB]} : gset chan).
Proof. vm_compute. reflexivity. Qed.

Lemma demo_index_reachable : reachable demo_index.
Proof. unfold demo_index. do 2 apply reach_Subscribe. apply reach_New. Qed.

(** The cases of [TestPublishWithContext] and [TestPublishWithTimeout]: one
    unbuffered subscriber of ["topic"]. *)
Example test_successful_publish :
  (Publish elements Background "topic" "msg" [Run true; Tick; Recv chA; Run true]
     (Subscribe ["topic"] chA New)
     (World 0 (<[chA := Hchan 0 [] 0 false []]> ∅))).2.2
  = Returned 1 None.
Proof. vm_compute. reflexivity. Qed.

Example test_canceled_context :
  (Publish elements (DoneAt 0 Canceled) "topic" "msg" [Run true]
     (Subscribe ["topic"] chA New)
     (World 0 (<[chA := Hchan 0 [] 0 false []]> ∅))).2.2
  = Returned 0 (Some Canceled).
Proof. vm_compute. reflexivity. Qed.

Example test_timeout :
  (PublishWithTimeout elements "topic" "msg" 2 [Run true; Tick; Run true; Tick; Run true]
     (Subscribe ["topic"] chA New)
     (World 0 (<[chA := Hchan 0 [] 0 false []]> ∅))).2.2
  = Returned 0 (Some DeadlineExceeded).
Proof. vm_compute. reflexivity. Qed.

Lemma Publish_fanout_complete_witness :
  ∃ w', Publish elements Background "topic1" "hello" [Run true; Tick; Run false]
          demo_index demo_world
        = (demo_index, (w', Returned (size ({[chA; chB]} : gset chan)) None))
      ∧ (∀ ch, ch ∈ ({[chA; chB]} : gset chan) →
           inbox w' ch ≡ₚ "hello" :: inbox demo_world ch)
      ∧ (∀ ch, ch ∉ ({[chA; chB]} : gset chan) →
           inbox w' ch = inbox demo_world ch).
Proof.
  apply (Publish_fanout_complete elements elements_perm Background "topic1"
           "hello" [Run true; Tick; Run false] demo_index demo_world
           {[chA; chB]}).
  - vm_compute. reflexivity.
  - intros t. reflexivity.
  - intros ch Hch. apply elem_of_union in Hch as [Hch|Hch];
      apply elem_of_singleton in Hch; subst ch; eexists;
      (split; [vm_compute; reflexivity|]); simpl; (split; [done|lia]).
  - vm_compute. lia.
Defined.

Lemma Publish_partial_delivery_witness :
  ∃ w', Publish elements (DoneAt 1 Canceled) "topic1" "msg"
          ([Run true] ++ [Tick] ++ Run true :: []) demo_index stalled_world
        = (demo_index, (w', Returned 1 (Some Canceled)))
      ∧ (1 < size ({[chA; chB]} : gset chan))%nat
      ∧ length [chA] = (size ({[chA; chB]} : gset chan) - 1)%nat
      ∧ (∃ t0, DoneAt 1 Canceled = DoneAt t0 Canceled)
      ∧ (∀ ch', ch' ∈ [chA] → inbox w' ch' = inbox stalled_world ch').
Proof.
  eapply (Publish_partial_delivery elements elements_perm (DoneAt 1 Canceled)
            "topic1" "msg" demo_index stalled_world {[chA; chB]}
            [Run true] [Tick] true [] _ chA [] 1%nat Canceled).
  - vm_compute. reflexivity.
  - vm_compute. reflexivity.
  - reflexivity.
  - vm_compute. reflexivity.
  - left. vm_compute. reflexivity.
Defined.

(** C2 as stated fails: both endpoints of ["topic1"] can accept; the first is
    served at instant 0, the context is cancelled at instant 1, and the
    [select] for the second endpoint, finding both cases ready, may take the
    send: Publish then returns [(2, nil)], not [(1, Canceled)]. *)
Lemma partial_delivery_counterexample :
  ¬ partial_delivery_unconditional elements (DoneAt 1 Canceled) "topic1" "msg"
      demo_index demo_world.
Proof.
  intros Hclaim.
  destruct (Hclaim {[chA; chB]} [Run true] [Tick] true []
              (run (DoneAt 1 Canceled) "msg" [Run true]
                 (demo_world, loop (elements ({[chA; chB]} : gset chan)) 0)).1
              chA [] 1%nat Canceled)
    as (w' & Hpub & _).
  - vm_compute. reflexivity.
  - vm_compute. reflexivity.
  - reflexivity.
  - vm_compute. reflexivity.
  - vm_compute in Hpub. discriminate Hpub.
Qed.

Lemma Publish_unknown_key_witness :
  Publish elements (DoneAt 0 Canceled) "nobody" "msg" [Run true] demo_index
    demo_world
  = (demo_index, (demo_world, Returned 0 None)).
Proof. apply Publish_unknown_key. vm_compute. reflexivity. Defined.

Lemma Publish_error_iff_short_witness :
  (Some Canceled = None ↔ 0%nat = size (subs_of demo_index "topic1"))
  ∧ (Some Canceled ≠ None ↔ (0 < size (subs_of demo_index "topic1"))%nat).
Proof.
  eapply (Publish_error_iff_short elements elements_perm (DoneAt 0 Canceled)
            "topic1" "msg" [Run false] demo_index demo_world).
  vm_compute. reflexivity.
Defined.

Lemma index_invariant_witness :
  Unsubscribe ["topic2"] chA demo_index !! "topic2" = None
  ∧ Publish elements Background "topic2" "msg" [Run true]
      (Unsubscribe ["topic2"] chA demo_index) demo_world
    = (Unsubscribe ["topic2"] chA demo_index, (demo_world, Returned 0 None)).
Proof.
  apply (proj2 (proj2 (proj2 (index_invariant elements)))).
  - apply list_elem_of_here.
  - vm_compute. reflexivity.
Defined.

Lemma Unsubscribe_frame_witness :
  Unsubscribe ["topic1"; "topic2"] chB demo_index !! "topic2"
  = demo_index !! "topic2".
Proof.
  apply (proj1 (Unsubscribe_frame demo_index ["topic1"; "topic2"] chB "topic2"
                  demo_index_reachable)).
  assert (subs_of demo_index "topic2" = {[chA]}) as ->
    by (vm_compute; reflexivity).
  intros Hin. apply elem_of_singleton in Hin. discriminate Hin.
Defined.

Lemma Publish_index_unchanged_witness :
  Concurrent.subscribers (Concurrent.Build (Concurrent.Mutex false 1) demo_index)
  = Concurrent.subscribers (Concurrent.Build (Concurrent.Mutex false 0) demo_index).
Proof.
  apply (proj2 (Publish_index_unchanged elements Background "topic1" "msg" []
                  demo_index demo_world)
           Concurrent.AtEntry true _ demo_world Concurrent.InRead _ demo_world).
  reflexivity.
Defined.

Lemma PublishWithTimeout_refines_witness :
  PublishWithTimeout elements "topic1" "msg" 1 [Run true; Tick; Run true]
    demo_index stalled_world
  = Publish elements (DoneAt 1 DeadlineExceeded) "topic1" "msg"
      [Run true; Tick; Run true] demo_index stalled_world.
Proof.
  apply PublishWithTimeout_refines. intros t. reflexivity.
Defined.

(** ** The lock discipline *)

Section concurrent_facts.
Import Concurrent.
Context {K : Type} {EqK : EqDecision K} {CountK : Countable K} {T : Type}.
Implicit Types (s : system (K := K) (T := T))
  (gs : list (call (K := K) (T := T) * pc (K := K)))
  (p : pc (K := K)) (f : pc (K := K) → bool).

Lemma count_insert f gs i c p c' p' :
  gs !! i = Some (c, p) →
  (count f (<[i := (c', p')]> gs) + (if f p then 1 else 0)
   = count f gs + (if f p' then 1 else 0))%nat.
Proof.
  revert i. induction gs as [|[c0 p0] gs IH]; intros [|i] Hi; simpl in *;
    try done.
  - injection Hi as -> ->. lia.
  - specialize (IH i Hi). lia.
Qed.

Lemma count_ge f gs i c p :
  gs !! i = Some (c, p) → f p = true → (1 ≤ count f gs)%nat.
Proof.
  revert i. induction gs as [|[c0 p0] gs IH]; intros [|i] Hi Hf; simpl in *;
    try done.
  - injection Hi as -> ->. rewrite Hf. lia.
  - specialize (IH i Hi Hf). lia.
Qed.

Lemma count_two f gs i j c p c' p' :
  i ≠ j → gs !! i = Some (c, p) → gs !! j = Some (c', p') →
  f p = true → f p' = true → (2 ≤ count f gs)%nat.
Proof.
  revert i j. induction gs as [|[c0 p0] gs IH]; intros [|i] [|j] Hne Hi Hj Hp Hp';
    simpl in *; try done.
  - injection Hi as -> ->. rewrite Hp.
    pose proof (count_ge f gs j c' p' Hj Hp'). lia.
  - injection Hj as -> ->. rewrite Hp'.
    pose proof (count_ge f gs i c p Hi Hp). lia.
  - assert (i ≠ j) as Hne' by congruence.
    specialize (IH i j Hne' Hi Hj Hp Hp'). lia.
Qed.

Lemma count_start f (calls : list (call (K := K) (T := T))) :
  f AtEntry = false → count f ((λ c, (c, AtEntry)) <$> calls) = 0%nat.
Proof. intros Hf. induction calls as [|c calls IH]; simpl; [done|]. by rewrite Hf. Qed.

Lemma lock_inv_start (calls : list (call (K := K) (T := T)))
    (index : gmap K (gset chan)) (w : world (T := T)) :
  lock_inv (start calls index w).
Proof.
  unfold lock_inv, start; simpl. rewrite !count_start by done. done.
Qed.

Lemma lock_inv_step s a : lock_inv s → lock_inv (sys_step s a).
Proof.
  intros (Hw & Hr & Hwr). destruct a as [i pick|e]; [|done].
  unfold sys_step. destruct (goroutines s !! i) as [[c p]|] eqn:Hi; [|done].
  destruct (goroutine_step c p pick (ps s) (wld s)) as [[[p' r'] w']|] eqn:Hstep;
    [|done].
  pose proof (count_insert holds_write _ _ _ _ c p' Hi) as Hcw.
  pose proof (count_insert holds_read _ _ _ _ c p' Hi) as Hcr.
  pose proof (count_ge holds_write _ _ _ _ Hi) as Hgw.
  pose proof (count_ge holds_read _ _ _ _ Hi) as Hgr.
  unfold lock_inv; simpl.
  destruct s as [[[wr rd] index] w gs]; simpl in *.
  assert (∀ b : bool, b = true ∨ b = false) as Hb by (intros []; auto).
  destruct c as [keys ch|keys ch|iter ctx key msg]; simpl in Hstep;
    unfold write_call_step, publish_step in Hstep; simpl in Hstep.
  1,2: destruct p as [|[|k ks]| |st|res]; simpl in *; try done;
    [ destruct wr; simpl in *; [done|];
      destruct (rd =? 0)%nat eqn:Hz; [|done]; apply Nat.eqb_eq in Hz;
      injection Hstep as <- <- <-; simpl in *;
      repeat split; (lia || done)
    | injection Hstep as <- <- <-; simpl in *;
      specialize (Hgw eq_refl); destruct wr; simpl in *;
      repeat split; (lia || done || (intros; lia))
    | injection Hstep as <- <- <-; simpl in *;
      repeat split; (lia || done) ].
  destruct p as [|todo| |st|res]; simpl in *; try done.
  - destruct wr; [done|]. injection Hstep as <- <- <-; simpl in *.
    repeat split; (lia || done).
  - destruct (index !! key); injection Hstep as <- <- <-; simpl in *;
      repeat split; (lia || done).
  - specialize (Hgr eq_refl).
    destruct st as [[|ch rest] n|n e|]; simpl in *;
      try (injection Hstep as <- <- <-; simpl in *;
           destruct wr; simpl in *;
           repeat split; (lia || done || (intros; specialize (Hwr eq_refl); lia))).
    destruct (select ctx msg pick w ch rest n) as [w1 st1].
    injection Hstep as <- <- <-; simpl in *.
    repeat split; (lia || done).
Qed.

Lemma lock_inv_exec schedule s : lock_inv s → lock_inv (exec schedule s).
Proof.
  revert s. induction schedule as [|a schedule IH]; intros s Hs; [done|].
  apply IH. by apply lock_inv_step.
Qed.

Lemma goroutine_step_index c p pick (r : PubSub (K := K)) (w : world (T := T))
    p' r' w' :
  goroutine_step c p pick r w = Some (p', r', w') →
  (∃ key todo, p = InWrite (key :: todo)) ∨ subscribers r' = subscribers r.
Proof.
  destruct c as [keys ch|keys ch|iter ctx key msg]; simpl;
    unfold write_call_step, publish_step.
  1,2: destruct p as [|[|k ks]| |st|res]; try done;
    [ destruct (negb _ && _); [|done]; intros [= <- <- <-]; by right
    | intros [= <- <- <-]; by right
    | intros _; left; eauto ].
  destruct p as [|todo| |st|res]; try done.
  - destruct (writer (mu r)); [done|]. intros [= <- <- <-]. by right.
  - destruct (subscribers r !! key); intros [= <- <- <-]; by right.
  - destruct st as [[|ch rest] n|n e|]; try (intros [= <- <- <-]; by right).
    destruct (select ctx msg pick w ch rest n). intros [= <- <- <-]. by right.
Qed.

Lemma goroutine_step_outside c p pick (r : PubSub (K := K)) (w : world (T := T)) :
  holds_write p = false → holds_read p = false → writer (mu r) = true →
  goroutine_step c p pick r w = None.
Proof.
  intros Hw Hr Hmu.
  destruct c as [keys ch|keys ch|iter ctx key msg]; simpl;
    unfold write_call_step, publish_step; destruct p; try done;
    by rewrite Hmu.
Qed.

Lemma index_change s a :
  subscribers (ps (sys_step s a)) ≠ subscribers (ps s) →
  ∃ i pick c key todo,
    a = Go i pick ∧ goroutines s !! i = Some (c, InWrite (key :: todo)).
Proof.
  destruct a as [i pick|e]; simpl; [|done].
  destruct (goroutines s !! i) as [[c p]|] eqn:Hi; [|done].
  destruct (goroutine_step c p pick (ps s) (wld s)) as [[[p' r'] w']|] eqn:Hstep;
    [|done].
  simpl. intros Hne.
  apply goroutine_step_index in Hstep as [(key & todo & ->)|Heq]; [|done].
  by exists i, pick, c, key, todo.
Qed.

Lemma isolated_writer s i c todo :
  lock_inv s → goroutines s !! i = Some (c, InWrite todo) →
  (∀ j c' p', j ≠ i → goroutines s !! j = Some (c', p') →
     holds_write p' = false ∧ holds_read p' = false)
  ∧ (∀ j pick, j ≠ i → sys_step s (Go j pick) = s).
Proof.
  intros (Hw & Hr & Hwr) Hi.
  pose proof (count_ge holds_write _ _ _ _ Hi eq_refl) as Hge.
  destruct (writer (mu (ps s))) eqn:Hmu; [|lia].
  specialize (Hwr eq_refl).
  assert (∀ j c' p', j ≠ i → goroutines s !! j = Some (c', p') →
            holds_write p' = false ∧ holds_read p' = false) as Hout.
  { intros j c' p' Hne Hj. split.
    - destruct (holds_write p') eqn:Hp'; [|done].
      pose proof (count_two holds_write _ _ _ _ _ _ _ Hne Hj Hi Hp' eq_refl).
      lia.
    - destruct (holds_read p') eqn:Hp'; [|done].
      pose proof (count_ge holds_read _ _ _ _ Hj Hp'). lia. }
  split; [done|]. intros j pick Hne. simpl.
  destruct (goroutines s !! j) as [[c' p']|] eqn:Hj; [|done].
  destruct (Hout j c' p' Hne Hj) as [Hnw Hnr].
  by rewrite goroutine_step_outside.
Qed.

Lemma guarded_reader s i c p :
  lock_inv s → goroutines s !! i = Some (c, p) → holds_read p = true →
  (∀ j c' p', goroutines s !! j = Some (c', p') → holds_write p' = false)
  ∧ (∀ a, subscribers (ps (sys_step s a)) = subscribers (ps s)).
Proof.
  intros (Hw & Hr & Hwr) Hi Hp.
  pose proof (count_ge holds_read _ _ _ _ Hi Hp) as Hge.
  destruct (writer (mu (ps s))) eqn:Hmu; [specialize (Hwr eq_refl); lia|].
  assert (∀ j c' p', goroutines s !! j = Some (c', p') →
            holds_write p' = false) as Hnow.
  { intros j c' p' Hj. destruct (holds_write p') eqn:Hp'; [|done].
    pose proof (count_ge holds_write _ _ _ _ Hj Hp'). lia. }
  split; [done|]. intros a.
  destruct (decide (subscribers (ps (sys_step s a)) = subscribers (ps s)))
    as [|Hne]; [done|].
  destruct (index_change s a Hne) as (j & pick & c' & key & todo & _ & Hj).
  by specialize (Hnow j c' _ Hj).
Qed.

(** A goroutine keeps its call, and once its call is over it stays over. *)
Lemma goroutine_step_Done s a i c res :
  goroutines s !! i = Some (c, Done res) →
  goroutines (sys_step s a) !! i = Some (c, Done res).
Proof.
  intros Hi. destruct a as [j pick|e]; simpl; [|done].
  destruct (goroutines s !! j) as [[c' p']|] eqn:Hj; [|done].
  destruct (goroutine_step c' p' pick (ps s) (wld s)) as [[[p1 r1] w1]|] eqn:Hstep;
    [|done].
  simpl. destruct (decide (j = i)) as [->|Hne].
  - rewrite Hi in Hj. injection Hj as <- <-. by destruct c.
  - by rewrite list_lookup_insert_ne.
Qed.

Lemma exec_Done schedule s i c res :
  goroutines s !! i = Some (c, Done res) →
  goroutines (exec schedule s) !! i = Some (c, Done res).
Proof.
  revert s. induction schedule as [|a schedule IH]; intros s Hi; [done|].
  apply IH. by apply goroutine_step_Done.
Qed.

(** From a state in which goroutine [i] holds the write lock with the keys
    [todo] still to do: as long as it is inside, what is left of its batch,
    applied to the current index, gives what the whole rest of the batch gives
    on the index of that state. *)
Lemma batch_atomic schedule s i c todo :
  lock_inv s → goroutines s !! i = Some (c, InWrite todo) →
  ∀ c' todo', goroutines (exec schedule s) !! i = Some (c', InWrite todo') →
    c' = c
    ∧ foldl (mutation c) (subscribers (ps (exec schedule s))) todo'
      = foldl (mutation c) (subscribers (ps s)) todo.
Proof.
  revert s todo. induction schedule as [|a schedule IH]; intros s todo Hinv Hi c' todo' Hi'.
  { simpl in Hi'. rewrite Hi in Hi'. by injection Hi' as <- <-. }
  unfold exec in *. simpl in Hi' |- *.
  pose proof (lock_inv_step s a Hinv) as Hinv'.
  destruct a as [j pick|e].
  - destruct (decide (j = i)) as [->|Hne].
    + simpl in *. rewrite Hi in *.
      destruct (goroutine_step c (InWrite todo) pick (ps s) (wld s))
        as [[[p1 r1] w1]|] eqn:Hstep; [|by eapply IH].
      assert (goroutines (System r1 w1 (<[i:=(c, p1)]> (goroutines s))) !! i
              = Some (c, p1)) as Hi1.
      { simpl. apply list_lookup_insert_eq. by eapply lookup_lt_Some. }
      destruct c as [keys ch|keys ch|iter ctx key msg]; simpl in Hstep;
        unfold write_call_step, publish_step in Hstep; [| |done].
      * destruct todo as [|k ks]; injection Hstep as <- <- <-.
        -- apply (exec_Done schedule) in Hi1. unfold exec in Hi1.
           rewrite Hi1 in Hi'. done.
        -- by apply (IH _ ks Hinv' Hi1 _ _ Hi').
      * destruct todo as [|k ks]; injection Hstep as <- <- <-.
        -- apply (exec_Done schedule) in Hi1. unfold exec in Hi1.
           rewrite Hi1 in Hi'. done.
        -- by apply (IH _ ks Hinv' Hi1 _ _ Hi').
    + destruct (isolated_writer s i c todo Hinv Hi) as [_ Hfrozen].
      rewrite Hfrozen in * by done. by eapply IH.
  - by apply (IH _ todo Hinv' Hi _ _ Hi').
Qed.

(** C8. In every state that any interleaving of any calls can reach from an
    idle registry: while a Subscribe or Unsubscribe call is between its Lock
    and its Unlock, every other call is outside the lock and cannot take a
    step, and however the schedule goes on, its batch over the keys has the
    effect it has when run alone; while a Publish call is between its RLock
    and its RUnlock no call holds the write lock and no step changes the
    index; and the index only ever changes by a step of a call that holds the
    write lock. *)
Theorem lock_discipline (calls : list (call (K := K) (T := T)))
    (index : gmap K (gset chan)) (w : world (T := T)) schedule :
  let s := exec schedule (start calls index w) in
  (∀ i c todo, goroutines s !! i = Some (c, InWrite todo) →
     (∀ j c' p', j ≠ i → goroutines s !! j = Some (c', p') →
        holds_write p' = false ∧ holds_read p' = false)
     ∧ (∀ j pick, j ≠ i → sys_step s (Go j pick) = s)
     ∧ (∀ schedule' c' todo',
          goroutines (exec schedule' s) !! i = Some (c', InWrite todo') →
          foldl (mutation c) (subscribers (ps (exec schedule' s))) todo'
          = foldl (mutation c) (subscribers (ps s)) todo))
  ∧ (∀ i c p, goroutines s !! i = Some (c, p) → holds_read p = true →
     (∀ j c' p', goroutines s !! j = Some (c', p') → holds_write p' = false)
     ∧ (∀ a, subscribers (ps (sys_step s a)) = subscribers (ps s)))
  ∧ (∀ a, subscribers (ps (sys_step s a)) ≠ subscribers (ps s) →
     ∃ i pick c key todo,
       a = Go i pick ∧ goroutines s !! i = Some (c, InWrite (key :: todo))).
Proof.
  intros s.
  pose proof (lock_inv_exec schedule _ (lock_inv_start calls index w)) as Hinv.
  fold s in Hinv.
  split; [|split].
  - intros i c todo Hi.
    destruct (isolated_writer s i c todo Hinv Hi) as [Hout Hfrozen].
    split; [done|]. split; [done|].
    intros schedule' c' todo' Hi'.
    by apply (batch_atomic schedule' s i c todo Hinv Hi c' todo').
  - intros i c p Hi Hp. by apply (guarded_reader s i c p).
  - apply index_change.
Qed.

End concurrent_facts.

(** A Subscribe call run alone through its steps does what [Subscribe] does,
    and leaves the lock free. *)
Example lone_Subscribe :
  Concurrent.ps
    (Concurrent.exec (replicate 4 (Concurrent.Go 0 true))
       (Concurrent.start [Concurrent.CallSubscribe ["topic1"; "topic2"] chA]
          (Subscribe ["topic1"] chB New) demo_world))
  = Concurrent.Build (Concurrent.Mutex false 0) demo_index.
Proof. vm_compute. reflexivity. Qed.

(** A Publish call run alone returns what [Publish] returns under the same
    scheduling of its selects. *)
Example lone_Publish :
  Concurrent.goroutines
    (Concurrent.exec (replicate 5 (Concurrent.Go 0 true))
       (Concurrent.start [Concurrent.CallPublish elements Background "topic1" "msg"]
          demo_index demo_world)) !! 0%nat
  = Some (Concurrent.CallPublish elements Background "topic1" "msg",
          Concurrent.Done
            (Some (Publish elements Background "topic1" "msg"
                     [Run true; Run true] demo_index demo_world).2.2)).
Proof. vm_compute. reflexivity. Qed.

Lemma lock_discipline_witness :
  let s := Concurrent.exec [Concurrent.Go 0 true; Concurrent.Go 0 true]
             (Concurrent.start demo_calls demo_index demo_world) in
  Concurrent.sys_step s (Concurrent.Go 1 true) = s
  ∧ Concurrent.sys_step s (Concurrent.Go 2 false) = s.
Proof.
  intros s.
  destruct (proj1 (lock_discipline demo_calls demo_index demo_world
                     [Concurrent.Go 0 true; Concurrent.Go 0 true])
              0%nat (Concurrent.CallSubscribe ["topic1"; "topic2"] chA)
              ["topic2"])
    as (_ & Hfrozen & _).
  - vm_compute. reflexivity.
  - split; apply Hfrozen; lia.
Defined.

(** ** More on the index: batches, round trips, sequences of calls *)

Section registry_more.
Import History.
Context {K : Type} {EqK : EqDecision K} {CountK : Countable K}.
Implicit Types (m : gmap K (gset chan)) (ch : chan) (keys : list K).

Lemma subs_of_Some m k (s : gset chan) : m !! k = Some s → subs_of m k = s.
Proof. unfold subs_of. by intros ->. Qed.

Lemma subs_of_elem m k ch :
  ch ∈ subs_of m k → ∃ s, m !! k = Some s ∧ ch ∈ s.
Proof.
  unfold subs_of. destruct (m !! k) as [s|]; simpl; [by eauto|].
  intros Hin. by apply not_elem_of_empty in Hin.
Qed.

Lemma union_difference_singleton (s : gset chan) ch :
  ch ∉ s → ({[ch]} ∪ s) ∖ {[ch]} = s.
Proof.
  intros Hn. apply set_eq. intros c.
  rewrite elem_of_difference, elem_of_union, elem_of_singleton.
  split; [tauto|]. intros Hc. split; [tauto|]. by intros ->.
Qed.

Lemma union_singleton_difference (s : gset chan) ch :
  ch ∈ s → {[ch]} ∪ s ∖ {[ch]} = s.
Proof.
  intros Hin. apply set_eq. intros c.
  rewrite elem_of_union, elem_of_difference, elem_of_singleton.
  destruct (decide (c = ch)) as [->|]; tauto.
Qed.

(** X1. Subscribe stores, under each key of the batch, the old subscriber set
    of that key with the endpoint added; it leaves the entry of every other
    key as it was; the keys with an entry afterwards are the old ones and
    those of the batch. *)
Theorem Subscribe_effect keys ch m :
  (∀ k, k ∈ keys → Subscribe keys ch m !! k = Some ({[ch]} ∪ subs_of m k))
  ∧ (∀ k, k ∉ keys → Subscribe keys ch m !! k = m !! k)
  ∧ dom (Subscribe keys ch m) = dom m ∪ list_to_set keys.
Proof.
  split; [|split].
  - intros k Hk. by rewrite Subscribe_lookup, decide_True.
  - intros k Hk. by rewrite Subscribe_lookup, decide_False.
  - apply set_eq. intros k.
    rewrite elem_of_union, !elem_of_dom, elem_of_list_to_set, Subscribe_lookup.
    destruct (decide (k ∈ keys)); [|tauto].
    split; [by right|by eauto].
Qed.

(** X2. Only the set of keys of a batch matters: two batches naming the same
    keys, in any order and with any repetitions, have the same effect, for
    Subscribe and for Unsubscribe. *)
Theorem batch_keys_as_set keys keys' ch m :
  (∀ k, k ∈ keys ↔ k ∈ keys') →
  Subscribe keys ch m = Subscribe keys' ch m
  ∧ Unsubscribe keys ch m = Unsubscribe keys' ch m.
Proof.
  intros Hk. split; apply map_eq; intros k.
  - rewrite !Subscribe_lookup.
    destruct (decide (k ∈ keys)) as [Hin|Hout].
    + by rewrite decide_True by by apply Hk.
    + rewrite decide_False; [done|]. by rewrite <- Hk.
  - rewrite !Unsubscribe_lookup.
    destruct (decide (k ∈ keys)) as [Hin|Hout].
    + by rewrite decide_True by by apply Hk.
    + rewrite decide_False; [done|]. by rewrite <- Hk.
Qed.

(** X3. Subscribing an endpoint to keys it was not subscribed to and then
    unsubscribing it from the same keys gives back the index one started
    from, entries created on the way included (the index satisfying its
    invariant). *)
Theorem Unsubscribe_Subscribe keys ch m :
  index_inv m →
  (∀ k, k ∈ keys → ch ∉ subs_of m k) →
  Unsubscribe keys ch (Subscribe keys ch m) = m.
Proof.
  intros Hinv' Hnew. pose proof (proj1 (index_inv_alt m) Hinv') as Hinv.
  apply map_eq. intros k.
  rewrite Unsubscribe_lookup, Subscribe_lookup.
  destruct (decide (k ∈ keys)) as [Hk|]; [|done].
  unfold without. rewrite union_difference_singleton by by apply Hnew.
  specialize (Hinv k). unfold subs_of.
  destruct (m !! k) as [s|]; simpl.
  - rewrite decide_False; [done|]. congruence.
  - by rewrite decide_True.
Qed.

(** X4. Unsubscribing an endpoint from keys it is subscribed to and then
    subscribing it to the same keys gives back the index one started from. *)
Theorem Subscribe_Unsubscribe keys ch m :
  (∀ k, k ∈ keys → ch ∈ subs_of m k) →
  Subscribe keys ch (Unsubscribe keys ch m) = m.
Proof.
  intros Hold. apply map_eq. intros k.
  rewrite Subscribe_lookup, subs_of_Unsubscribe.
  destruct (decide (k ∈ keys)) as [Hk|]; [|by rewrite Unsubscribe_lookup, decide_False].
  destruct (subs_of_elem m k ch (Hold k Hk)) as (s & Hs & Hin).
  rewrite (subs_of_Some m k s Hs), Hs.
  by rewrite union_singleton_difference.
Qed.

(** X5. Repeating a call changes nothing, for whole batches: a second
    Subscribe, or a second Unsubscribe, with the same keys and endpoint leaves
    the index as the first left it. *)
Theorem batch_idempotent keys ch m :
  Subscribe keys ch (Subscribe keys ch m) = Subscribe keys ch m
  ∧ Unsubscribe keys ch (Unsubscribe keys ch m) = Unsubscribe keys ch m.
Proof.
  split; apply map_eq; intros k.
  - rewrite !Subscribe_lookup, subs_of_Subscribe.
    destruct (decide (k ∈ keys)); [|done].
    f_equal. by rewrite (assoc_L (∪)), (idemp_L (∪)).
  - rewrite !Unsubscribe_lookup.
    destruct (decide (k ∈ keys)); [apply without_idemp|done].
Qed.

Lemma without_comm c1 c2 (e : option (gset chan)) :
  without c1 (without c2 e) = without c2 (without c1 e).
Proof.
  assert (∀ s : gset chan, s ∖ {[c2]} ∖ {[c1]} = s ∖ {[c1]} ∖ {[c2]}) as Hsw.
  { intros s. apply set_eq. intros c. rewrite !elem_of_difference. tauto. }
  destruct e as [s|]; simpl; [|done].
  destruct (decide (s ∖ {[c2]} = ∅)) as [E2|N2],
           (decide (s ∖ {[c1]} = ∅)) as [E1|N1]; simpl; try done.
  - rewrite <- Hsw, E2. rewrite decide_True; [done|].
    apply leibniz_equiv, difference_disjoint, disjoint_empty_l.
  - rewrite Hsw, E1. rewrite decide_True; [done|].
    apply leibniz_equiv, difference_disjoint, disjoint_empty_l.
  - by rewrite Hsw.
Qed.

(** X6. Calls for different endpoints can be made in either order: two
    Subscribe calls commute, two Unsubscribe calls commute, and a Subscribe
    commutes with an Unsubscribe of another endpoint, whatever keys the two
    batches share. *)
Theorem calls_commute keys1 keys2 c1 c2 m :
  Subscribe keys1 c1 (Subscribe keys2 c2 m)
    = Subscribe keys2 c2 (Subscribe keys1 c1 m)
  ∧ Unsubscribe keys1 c1 (Unsubscribe keys2 c2 m)
    = Unsubscribe keys2 c2 (Unsubscribe keys1 c1 m)
  ∧ (c1 ≠ c2 →
     Subscribe keys1 c1 (Unsubscribe keys2 c2 m)
       = Unsubscribe keys2 c2 (Subscribe keys1 c1 m)).
Proof.
  split; [|split].
  - apply map_eq. intros k. rewrite !Subscribe_lookup, !subs_of_Subscribe.
    destruct (decide (k ∈ keys1)), (decide (k ∈ keys2)); try done.
    f_equal. rewrite !(assoc_L (∪)). f_equal. apply (comm_L (∪)).
  - apply map_eq. intros k. rewrite !Unsubscribe_lookup.
    destruct (decide (k ∈ keys1)), (decide (k ∈ keys2)); try done.
    apply without_comm.
  - intros Hne. apply map_eq. intros k.
    rewrite Subscribe_lookup, !Unsubscribe_lookup, Subscribe_lookup,
      subs_of_Unsubscribe.
    destruct (decide (k ∈ keys1)), (decide (k ∈ keys2)); try done.
    unfold without.
    assert (({[c1]} ∪ subs_of m k) ∖ {[c2]} = {[c1]} ∪ subs_of m k ∖ {[c2]})
      as ->.
    { apply set_eq. intros c.
      rewrite !elem_of_difference, !elem_of_union, !elem_of_difference,
        !elem_of_singleton.
      split; [tauto|]. intros [->|[? ?]]; split; auto. }
    rewrite decide_False; [done|].
    intros E. apply (not_elem_of_empty (C := gset chan) c1). rewrite <- E.
    apply elem_of_union_l, elem_of_singleton. done.
Qed.

Lemma track_apply_op key ch m (o : op) :
  bool_decide (ch ∈ subs_of (apply_op m o) key)
  = track key ch (bool_decide (ch ∈ subs_of m key)) o.
Proof.
  destruct o as [keys ch'|keys ch']; simpl.
  - rewrite subs_of_Subscribe.
    destruct (decide (key ∈ keys ∧ ch = ch')) as [[Hk ->]|Hn].
    + rewrite decide_True by done. apply bool_decide_eq_true.
      apply elem_of_union_l, elem_of_singleton. done.
    + destruct (decide (key ∈ keys)); [|done].
      apply bool_decide_ext. rewrite elem_of_union, elem_of_singleton.
      split; [intros [->|?]; tauto | tauto].
  - rewrite subs_of_Unsubscribe.
    destruct (decide (key ∈ keys ∧ ch = ch')) as [[Hk ->]|Hn].
    + rewrite decide_True by done. apply bool_decide_eq_false.
      rewrite elem_of_difference, elem_of_singleton. tauto.
    + destruct (decide (key ∈ keys)); [|done].
      apply bool_decide_ext. rewrite elem_of_difference, elem_of_singleton.
      split; [tauto|]. intros Hin. split; [done|]. intros ->. tauto.
Qed.

(** X7. After any sequence of Subscribe and Unsubscribe calls, an endpoint is
    among the subscribers of a key exactly when the last call naming both that
    key and that endpoint was a Subscribe, or, no call naming both, when it
    was among them before. *)
Theorem last_call_decides (ops : list op) key ch m :
  ch ∈ subs_of (apply_ops ops m) key
  ↔ foldl (track key ch) (bool_decide (ch ∈ subs_of m key)) ops = true.
Proof.
  unfold apply_ops. revert m.
  induction ops as [|o ops IH]; intros m; simpl.
  - by rewrite bool_decide_eq_true.
  - by rewrite IH, track_apply_op.
Qed.

End registry_more.

(** ** More on the delivery loop *)

Section publish_more.
Import Schedule.
Context {K : Type} {EqK : EqDecision K} {CountK : Countable K} {T : Type}.
Implicit Types (w : world (T := T)) (c : hchan (T := T)) (ch : chan)
  (todo sent rest : list chan) (st : pstate) (trace : list (action))
  (ctx : Ctx) (msg : T) (subscribers : gmap K (gset chan)) (key : K).

Variable iter : gset chan → list chan.
Hypothesis iter_perm : ∀ s, iter s ≡ₚ elements s.

Lemma run_Panicked ctx msg trace w :
  run ctx msg trace (w, Panicked) = (w, Panicked).
Proof. induction trace as [|a trace IH]; [done|]. apply IH. Qed.

Lemma served_init msg w0 todo0 : served msg w0 todo0 (w0, loop todo0 0).
Proof.
  exists [], todo0. split; [done|]. split.
  - split; [intros ch Hin; by apply elem_of_nil in Hin | done].
  - unfold loop. destruct todo0; simpl; done.
Qed.

Lemma step_served ctx msg w0 todo0 cfg a :
  NoDup todo0 →
  served msg w0 todo0 cfg → served msg w0 todo0 (step ctx msg cfg a).
Proof.
  intros Hnd. destruct cfg as [w st]. unfold step; simpl.
  destruct st as [[|ch rest] n|n err|]; try done.
  { intros (sent & rest & _ & _ & <- & Hne & _). done. }
  intros (sent & rest0 & Ht & Hd & <- & _ & ->). simpl in Hd.
  assert (∀ e, served msg w0 todo0 (w, Returned (length sent) (Some e)))
    as Hret.
  { intros e. exists sent, (ch :: rest). do 2 (split; [done|]).
    split; [done|]. by split. }
  assert (∀ w' st', send_case msg w ch rest (length sent) = (w', st') →
                    served msg w0 todo0 (w', st')) as Hsend.
  { intros w' st' Hs. apply send_case_inv in Hs
      as [[-> ->]|(-> & _ & Hp & Hother)].
    { exists sent, (ch :: rest). by do 2 (split; [done|]). }
    exists (sent ++ [ch]), rest. split; [by rewrite <- app_assoc|]. split.
    - eapply delivered_to_snoc; eauto.
      subst todo0. apply NoDup_app in Hnd as (_ & Hdis & _).
      intros Hin. apply (Hdis ch Hin). apply list_elem_of_here.
    - rewrite length_app. simpl. replace (length sent + 1)%nat with (S (length sent)) by lia.
      unfold loop. destruct rest; simpl; done. }
  destruct a as [|ch0|pick]; simpl.
  - exists sent, (ch :: rest). split; [done|]. split; [|done]. apply Hd.
  - exists sent, (ch :: rest). split; [done|]. split; [|done].
    by apply (delivered_to_env _ _ _ _ (Recv ch0)).
  - unfold select.
    destruct (send_ready w ch), (Err ctx (now w)) as [e|]; simpl.
    + destruct pick; [|apply Hret].
      destruct (send_case msg w ch rest (length sent)) eqn:Hs. by eapply Hsend.
    + destruct (send_case msg w ch rest (length sent)) eqn:Hs. by eapply Hsend.
    + apply Hret.
    + exists sent, (ch :: rest). done.
Qed.

Lemma run_served ctx msg w0 todo0 trace cfg :
  NoDup todo0 →
  served msg w0 todo0 cfg → served msg w0 todo0 (run ctx msg trace cfg).
Proof.
  intros Hnd. unfold run. revert cfg.
  induction trace as [|a trace IH]; intros cfg Hp; simpl; [done|].
  apply IH. by apply step_served.
Qed.

Lemma Publish_served ctx key msg trace subscribers w :
  served msg w (iter (subs_of subscribers key))
    (Publish iter ctx key msg trace subscribers w).2
  ∨ (subscribers !! key = None
     ∧ (Publish iter ctx key msg trace subscribers w).2 = (w, Returned 0 None)).
Proof.
  unfold Publish, subs_of. destruct (subscribers !! key) as [subs|]; simpl.
  - left. apply run_served; [apply iter_NoDup, iter_perm | apply served_init].
  - by right.
Qed.

(** What a run leaves in the inboxes, whatever its outcome. *)
Lemma Publish_inboxes ctx key msg trace subscribers w :
  ∃ sent,
    NoDup sent
    ∧ (∀ ch, ch ∈ sent → ch ∈ subs_of subscribers key)
    ∧ delivered_to msg w (Publish iter ctx key msg trace subscribers w).2.1 sent
    ∧ ∀ n err, (Publish iter ctx key msg trace subscribers w).2.2 = Returned n err →
        n = length sent.
Proof.
  destruct (Publish_served ctx key msg trace subscribers w)
    as [(sent & rest & Hi & Hd & Hst)|[Hnone ->]].
  - exists sent. pose proof (iter_NoDup iter iter_perm (subs_of subscribers key)) as Hnd.
    rewrite Hi in Hnd. apply NoDup_app in Hnd as (Hnd & _ & _).
    split; [done|]. split.
    { intros ch Hch. apply (elem_of_iter iter iter_perm). rewrite Hi.
      apply elem_of_app. by left. }
    split; [done|]. intros n err Hr. rewrite Hr in Hst. by destruct Hst.
  - exists []. split; [apply NoDup_nil_2|].
    split; [intros ch Hin; by apply elem_of_nil in Hin|].
    split; [|by intros n err [= <- _]].
    split; [intros ch Hin; by apply elem_of_nil in Hin | done].
Qed.

(** X8. Whatever the context, the schedule and the outcome (returned,
    panicked or still blocked), a Publish call leaves every endpoint with what
    it had, except that subscribers of the key may have taken one copy of the
    message: nothing goes to an endpoint that is not subscribed to the key,
    nothing is delivered twice, nothing but the message is delivered. *)
Theorem Publish_at_most_once ctx key msg trace subscribers w ch :
  inbox (Publish iter ctx key msg trace subscribers w).2.1 ch = inbox w ch
  ∨ (ch ∈ subs_of subscribers key
     ∧ inbox (Publish iter ctx key msg trace subscribers w).2.1 ch
         ≡ₚ msg :: inbox w ch).
Proof.
  destruct (Publish_inboxes ctx key msg trace subscribers w)
    as (sent & _ & Hsub & [Hin Hout] & _).
  destruct (decide (ch ∈ sent)) as [Hch|Hch].
  - right. split; [by apply Hsub | by apply Hin].
  - left. by apply Hout.
Qed.

(** X9. The count Publish returns is the number of deliveries it made: when
    it returns [n], there are exactly [n] distinct subscribers of the key that
    took the message, once each, and no other endpoint took anything; in
    particular [n] is at most the number of subscribers. *)
Theorem Publish_count_exact ctx key msg trace subscribers w subscribers' w' n err :
  Publish iter ctx key msg trace subscribers w
    = (subscribers', (w', Returned n err)) →
  (n ≤ size (subs_of subscribers key))%nat
  ∧ ∃ sent, NoDup sent ∧ length sent = n
      ∧ (∀ ch, ch ∈ sent →
           ch ∈ subs_of subscribers key ∧ inbox w' ch ≡ₚ msg :: inbox w ch)
      ∧ (∀ ch, ch ∉ sent → inbox w' ch = inbox w ch).
Proof.
  intros Hpub.
  destruct (Publish_inboxes ctx key msg trace subscribers w)
    as (sent & Hnd & Hsub & [Hin Hout] & Hn).
  rewrite Hpub in *. simpl in *. specialize (Hn n err eq_refl). subst n.
  split.
  - rewrite <- (iter_length iter iter_perm).
    apply submseteq_length, NoDup_submseteq; [done|].
    intros ch Hch. apply (elem_of_iter iter iter_perm). by apply Hsub.
  - exists sent. repeat split; auto.
Qed.

Lemma select_now ctx msg pick w ch rest n :
  now (select ctx msg pick w ch rest n).1 = now w.
Proof.
  unfold select, send_case.
  destruct (send_ready w ch), (Err ctx (now w)), pick; try done;
    destruct (heap w !! ch ≫= chansend msg); done.
Qed.

Lemma step_now ctx msg cfg a : now cfg.1 ≤ now (step ctx msg cfg a).1.
Proof.
  destruct cfg as [w [[|ch rest] n|n err|]]; unfold step; simpl; try lia.
  destruct a as [|ch0|pick].
  - simpl. lia.
  - apply (now_env_step (Recv ch0)).
  - rewrite select_now. lia.
Qed.

Lemma run_now ctx msg trace cfg : now cfg.1 ≤ now (run ctx msg trace cfg).1.
Proof.
  revert cfg. induction trace as [|a trace IH]; intros cfg; [simpl; lia|].
  rewrite run_cons. etrans; [apply (step_now ctx msg cfg a)|apply IH].
Qed.

(** A returned error is what the context reported at the moment of return. *)
Lemma step_err ctx msg cfg a :
  (∀ n e, cfg.2 = Returned n (Some e) → Err ctx (now cfg.1) = Some e) →
  ∀ n e, (step ctx msg cfg a).2 = Returned n (Some e) →
         Err ctx (now (step ctx msg cfg a).1) = Some e.
Proof.
  destruct cfg as [w [[|ch rest] n0|n0 err|]]; unfold step; simpl;
    intros Hinv n e.
  - done.
  - destruct a as [|ch0|pick]; simpl; try done.
    unfold select.
    assert (∀ w' st', send_case msg w ch rest n0 = (w', st') →
                      st' ≠ Returned n (Some e)) as Hsend.
    { intros w' st' Hs. apply send_case_inv in Hs as [[-> _]|[-> _]]; [done|].
      unfold loop. by destruct rest. }
    destruct (send_ready w ch), (Err ctx (now w)) as [e0|] eqn:He; simpl.
    + destruct pick; simpl; [|by intros [= <- <-]].
      destruct (send_case msg w ch rest n0) as [w' st'] eqn:Hs; simpl.
      intros Hst. by destruct (Hsend w' st' eq_refl).
    + destruct (send_case msg w ch rest n0) as [w' st'] eqn:Hs; simpl.
      intros Hst. by destruct (Hsend w' st' eq_refl).
    + by intros [= <- <-].
    + done.
  - apply Hinv.
  - done.
Qed.

Lemma run_err ctx msg trace cfg :
  (∀ n e, cfg.2 = Returned n (Some e) → Err ctx (now cfg.1) = Some e) →
  ∀ n e, (run ctx msg trace cfg).2 = Returned n (Some e) →
         Err ctx (now (run ctx msg trace cfg).1) = Some e.
Proof.
  revert cfg. induction trace as [|a trace IH]; intros cfg Hinv; [done|].
  rewrite run_cons. apply IH. by apply step_err.
Qed.

Lemma Publish_err ctx key msg trace subscribers w n e :
  (Publish iter ctx key msg trace subscribers w).2.2 = Returned n (Some e) →
  Err ctx (now (Publish iter ctx key msg trace subscribers w).2.1) = Some e.
Proof.
  unfold Publish. destruct (subscribers !! key) as [subs|]; simpl; [|done].
  apply run_err. simpl. intros n0 e0. unfold loop. by destruct (iter subs).
Qed.

(** X10. An error returned by Publish is the error of the context it was
    given, and the context was done by the time of the return: the call never
    reports a cancellation that has not happened, and with a context that
    cannot fire it never returns an error. *)
Theorem Publish_error_is_ctx_err ctx key msg trace subscribers w
    subscribers' w' n e :
  Publish iter ctx key msg trace subscribers w
    = (subscribers', (w', Returned n (Some e))) →
  Err ctx (now w') = Some e
  ∧ ∃ t0, ctx = DoneAt t0 e ∧ t0 ≤ now w'.
Proof.
  intros Hpub.
  pose proof (Publish_err ctx key msg trace subscribers w n e) as He.
  rewrite Hpub in He. specialize (He eq_refl). simpl in He.
  split; [done|]. by apply Err_cause.
Qed.

(** Once the context is done, every scheduling of the goroutine either
    serves an endpoint or ends the call. *)
Lemma run_done_ctx ctx msg trace w todo n e :
  Err ctx (now w) = Some e →
  (length todo ≤ runs trace)%nat →
  ∀ todo' n', (run ctx msg trace (w, loop todo n)).2 ≠ Running todo' n'.
Proof.
  revert w todo n. induction trace as [|a trace IH]; intros w todo n He Hlen.
  - destruct todo; simpl in *; [done|lia].
  - destruct todo as [|ch rest].
    { unfold loop. by rewrite run_Returned. }
    rewrite run_cons. destruct a as [|ch0|pick]; unfold step; simpl.
    + apply (IH _ (ch :: rest) n); [|done].
      apply (Err_mono ctx (now w)); [done|simpl; lia].
    + apply (IH _ (ch :: rest) n); [|done].
      apply (Err_mono ctx (now w)); [done|apply (now_env_step (Recv ch0))].
    + assert (∀ w' st', send_case msg w ch rest n = (w', st') →
                ∀ todo' n', (run ctx msg trace (w', st')).2 ≠ Running todo' n')
        as Hsend.
      { intros w' st' Hs. apply send_case_inv in Hs
          as [[-> ->]|(-> & Hnow & _)].
        - intros todo' n'. by rewrite run_Panicked.
        - apply IH; [by rewrite Hnow | simpl in Hlen; lia]. }
      unfold select. rewrite He.
      destruct (send_ready w ch); [destruct pick|].
      * destruct (send_case msg w ch rest n) eqn:Hs. by eapply Hsend.
      * intros todo' n'. by rewrite run_Returned.
      * intros todo' n'. by rewrite run_Returned.
Qed.

(** X11. A done context bounds the call: if the context is already done when
    Publish is called, then however the schedule goes, once the goroutine has
    been scheduled as many times as the key has subscribers the call is over
    (it has returned, or panicked on a closed channel), whether or not any
    subscriber ever reads. *)
Theorem Publish_ends_when_done ctx key msg trace subscribers w e :
  Err ctx (now w) = Some e →
  (size (subs_of subscribers key) ≤ runs trace)%nat →
  (∃ n err, (Publish iter ctx key msg trace subscribers w).2.2 = Returned n err)
  ∨ (Publish iter ctx key msg trace subscribers w).2.2 = Panicked.
Proof.
  intros He Hlen. unfold Publish, subs_of in *.
  destruct (subscribers !! key) as [subs|]; simpl in *; [|by eauto].
  pose proof (run_done_ctx ctx msg trace w (iter subs) 0 e He) as Hno.
  rewrite (iter_length iter iter_perm) in Hno. specialize (Hno Hlen).
  destruct (run ctx msg trace (w, loop (iter subs) 0)) as [w' [todo' n'|n' err|]];
    simpl in *; [by destruct (Hno todo' n') | by eauto | by right].
Qed.

Lemma run_ticks ctx msg trace w st w1 todo' n' :
  run ctx msg trace (w, st) = (w1, Running todo' n') →
  now w1 = now w + ticks trace.
Proof.
  revert w st. induction trace as [|a trace IH]; intros w st.
  - intros [= <- _]. simpl. lia.
  - rewrite run_cons.
    destruct st as [[|ch rest] n|n err|]; unfold step; simpl.
    + rewrite run_Returned. done.
    + destruct a as [|ch0|pick]; simpl.
      * intros Hr. apply IH in Hr. simpl in Hr. lia.
      * intros Hr. apply IH in Hr. rewrite Hr. f_equal.
        simpl. destruct (heap w !! ch0); done.
      * destruct (select ctx msg pick w ch rest n) as [w2 st2] eqn:Hsel.
        intros Hr. apply IH in Hr. rewrite Hr. f_equal.
        pose proof (select_now ctx msg pick w ch rest n) as Hn.
        by rewrite Hsel in Hn.
    + rewrite run_Returned. done.
    + rewrite run_Panicked. done.
Qed.

(** X12. The timeout bounds PublishWithTimeout: once the clock has advanced
    by the timeout and the goroutine has then been scheduled as many times as
    the key has subscribers, the call is over, even if no subscriber ever
    reads. *)
Theorem PublishWithTimeout_bounded key msg timeout t1 t2 subscribers w :
  timeout ≤ ticks t1 →
  (size (subs_of subscribers key) ≤ runs t2)%nat →
  (∃ n err, (PublishWithTimeout iter key msg timeout (t1 ++ t2) subscribers w).2.2
            = Returned n err)
  ∨ (PublishWithTimeout iter key msg timeout (t1 ++ t2) subscribers w).2.2
    = Panicked.
Proof.
  intros Ht Hlen. unfold PublishWithTimeout, Publish, subs_of in *.
  destruct (subscribers !! key) as [subs|]; simpl in *; [|by eauto].
  set (ctx := DoneAt (now w + timeout) DeadlineExceeded).
  rewrite run_app.
  pose proof (run_served ctx msg w (iter subs) t1 _
                (iter_NoDup iter iter_perm subs) (served_init msg w (iter subs)))
    as Hserved.
  destruct (run ctx msg t1 (w, loop (iter subs) 0)) as [w1 st1] eqn:Hr1.
  destruct st1 as [todo1 n1|n1 err1|].
  - destruct Hserved as (sent & rest & Hi & _ & <- & Hne & _).
    pose proof (run_ticks ctx msg t1 w _ w1 todo1 n1 Hr1) as Hnow.
    assert (Err ctx (now w1) = Some DeadlineExceeded) as He.
    { unfold ctx; simpl. rewrite decide_True; [done|lia]. }
    assert (Running todo1 n1 = loop todo1 n1) as -> by by destruct todo1.
    pose proof (run_done_ctx ctx msg t2 w1 todo1 n1 _ He) as Hno.
    assert (length todo1 ≤ runs t2)%nat as Hl.
    { pose proof (iter_length iter iter_perm subs) as Hsz.
      rewrite Hi, length_app in Hsz. lia. }
    specialize (Hno Hl).
    destruct (run ctx msg t2 (w1, loop todo1 n1)) as [w' [todo' n'|n' err|]];
      simpl in *; [by destruct (Hno todo' n') | by eauto | by right].
  - rewrite run_Returned. by eauto.
  - rewrite run_Panicked. by right.
Qed.

(** X13. An error of PublishWithTimeout is always DeadlineExceeded, never
    Canceled, and it is returned no earlier than the timeout after the start
    of the call. *)
Theorem PublishWithTimeout_error key msg timeout trace subscribers w
    subscribers' w' n e :
  PublishWithTimeout iter key msg timeout trace subscribers w
    = (subscribers', (w', Returned n (Some e))) →
  e = DeadlineExceeded ∧ now w + timeout ≤ now w'.
Proof.
  unfold PublishWithTimeout. simpl. intros Hpub.
  pose proof (Publish_err (DoneAt (now w + timeout) DeadlineExceeded) key msg
                trace subscribers w n e) as He.
  rewrite Hpub in He. specialize (He eq_refl). simpl in He.
  destruct (decide (now w + timeout ≤ now w')); [|done].
  by injection He as <-.
Qed.

Lemma send_ready_heap w w' ch :
  heap w' !! ch = heap w !! ch → send_ready w' ch = send_ready w ch.
Proof. unfold send_ready. by intros ->. Qed.

Lemma heap_env_step_ne a w ch :
  (∀ ch0, a = Recv ch0 → ch0 ≠ ch) → heap (env_step a w) !! ch = heap w !! ch.
Proof.
  destruct a as [|ch0|b]; simpl; try done. intros Hne.
  destruct (heap w !! ch0); simpl; [|done].
  rewrite lookup_insert_ne; [done|]. by apply Hne.
Qed.

(** An endpoint that cannot accept and that nobody reads is never passed. *)
Lemma run_stalled ctx msg trace w todo n ch :
  (∀ t, Err ctx t = None) →
  ch ∈ todo → send_ready w ch = false → reads ch trace = false →
  heap (run ctx msg trace (w, Running todo n)).1 !! ch = heap w !! ch
  ∧ ((run ctx msg trace (w, Running todo n)).2 = Panicked
     ∨ ∃ todo' n', (run ctx msg trace (w, Running todo n)).2 = Running todo' n'
                   ∧ ch ∈ todo').
Proof.
  intros Hctx. revert w todo n.
  induction trace as [|a trace IH]; intros w todo n Hin Hnr Hreads.
  { split; [done|]. right. by exists todo, n. }
  destruct todo as [|c0 rest]; [by apply elem_of_nil in Hin|].
  rewrite run_cons. unfold step; simpl.
  destruct a as [|ch0|pick]; simpl in Hreads.
  - destruct (IH (env_step Tick w) (c0 :: rest) n Hin) as [Hh Hst]; try done.
  - apply orb_false_iff in Hreads as [Hne Hreads].
    apply bool_decide_eq_false in Hne.
    assert (heap (env_step (Recv ch0) w) !! ch = heap w !! ch) as Hh0.
    { apply heap_env_step_ne. by intros ? [= <-]. }
    destruct (IH (env_step (Recv ch0) w) (c0 :: rest) n Hin) as [Hh Hst];
      [by rewrite (send_ready_heap w)|done|].
    split; [by rewrite Hh|done].
  - unfold select. rewrite Hctx.
    assert (send_ready w c0 = false →
            heap (run ctx msg trace (w, Running (c0 :: rest) n)).1 !! ch
              = heap w !! ch
            ∧ ((run ctx msg trace (w, Running (c0 :: rest) n)).2 = Panicked
               ∨ ∃ todo' n',
                   (run ctx msg trace (w, Running (c0 :: rest) n)).2
                     = Running todo' n' ∧ ch ∈ todo')) as Hstay.
    { intros _. by apply IH. }
    destruct (send_ready w c0) eqn:Hr0; [|by apply Hstay].
    assert (c0 ≠ ch) as Hne by (intros ->; congruence).
    apply elem_of_cons in Hin as [->|Hin]; [done|].
    destruct (send_case msg w c0 rest n) as [w' st'] eqn:Hs.
    apply send_case_inv in Hs as [[-> ->]|(-> & _ & _ & Hother)].
    + rewrite run_Panicked. split; [done|by left].
    + assert (loop rest (S n) = Running rest (S n)) as ->.
      { destruct rest; [by apply elem_of_nil in Hin|done]. }
      assert (heap w' !! ch = heap w !! ch) as Hh0 by (apply Hother; congruence).
      destruct (IH w' rest (S n) Hin) as [Hh Hst];
        [by rewrite (send_ready_heap w)|done|].
      split; [by rewrite Hh|done].
Qed.

(** X14. One subscriber that cannot accept the message and that nobody reads
    from stalls the call for good when the context cannot fire: whatever the
    schedule, Publish does not return, and that subscriber's channel is left
    as it was. *)
Theorem Publish_stalls ctx key msg trace subscribers w ch :
  (∀ t, Err ctx t = None) →
  ch ∈ subs_of subscribers key →
  send_ready w ch = false →
  reads ch trace = false →
  (∀ n err, (Publish iter ctx key msg trace subscribers w).2.2 ≠ Returned n err)
  ∧ heap (Publish iter ctx key msg trace subscribers w).2.1 !! ch = heap w !! ch.
Proof.
  intros Hctx Hch Hnr Hreads. unfold Publish, subs_of in *.
  destruct (subscribers !! key) as [subs|]; simpl in *;
    [|by apply not_elem_of_empty in Hch].
  apply (elem_of_iter iter iter_perm) in Hch.
  assert (loop (iter subs) 0 = Running (iter subs) 0) as ->.
  { destruct (iter subs); [by apply elem_of_nil in Hch|done]. }
  destruct (run_stalled ctx msg trace w (iter subs) 0 ch Hctx Hch Hnr Hreads)
    as [Hh [Hp|(todo' & n' & Hr & _)]].
  - split; [|done]. intros n err. by rewrite Hp.
  - split; [|done]. intros n err. by rewrite Hr.
Qed.

Lemma closed_chanrecv c : closed (chanrecv c) = closed c.
Proof.
  unfold chanrecv. destruct (buf c); simpl; [|done].
  destruct (closed c) eqn:E; simpl; done.
Qed.

Lemma closed_env_step a w ch c' :
  heap (env_step a w) !! ch = Some c' →
  ∃ c, heap w !! ch = Some c ∧ closed c = closed c'.
Proof.
  destruct a as [|ch0|b]; simpl; [by eauto| |by eauto].
  destruct (heap w !! ch0) as [c0|] eqn:E; [|by eauto]. simpl.
  destruct (decide (ch = ch0)) as [->|Hne].
  - rewrite lookup_insert_eq. intros [= <-]. exists c0.
    by rewrite closed_chanrecv.
  - rewrite lookup_insert_ne by done. by eauto.
Qed.

Lemma run_open ctx msg trace w todo n :
  (∀ ch c, ch ∈ todo → heap w !! ch = Some c → closed c = false) →
  (run ctx msg trace (w, loop todo n)).2 ≠ Panicked.
Proof.
  revert w todo n. induction trace as [|a trace IH]; intros w todo n Hopen.
  { unfold loop. by destruct todo. }
  destruct todo as [|c0 rest]; [unfold loop; by rewrite run_Returned|].
  rewrite run_cons. unfold step; simpl.
  assert (∀ e, a = Tick ∨ a = Recv e →
            (run ctx msg trace (env_step a w, Running (c0 :: rest) n)).2
              ≠ Panicked) as Henv.
  { intros e Ha. apply (IH _ (c0 :: rest) n). intros ch c' Hin Hc'.
    apply closed_env_step in Hc' as (c & Hc & <-). by eapply Hopen. }
  destruct a as [|ch0|pick]; [by apply (Henv 1%positive); left
                             |by apply (Henv ch0); right|].
  unfold select.
  assert (send_ready w c0 = true →
          (run ctx msg trace (send_case msg w c0 rest n)).2 ≠ Panicked)
    as Hsend.
  { unfold send_ready, send_case.
    destruct (heap w !! c0) as [c|] eqn:Hc0; [|done]. intros _. simpl.
    pose proof (Hopen c0 c (list_elem_of_here _ _) Hc0) as Hcl.
    unfold chansend. rewrite Hcl.
    destruct (0 <? recvq c)%nat; apply IH; intros ch c' Hin; simpl;
      (destruct (decide (ch = c0)) as [->|Hne];
       [rewrite lookup_insert_eq; by intros [= <-]
       |rewrite lookup_insert_ne by done; intros Hc';
        eapply Hopen; [by apply list_elem_of_further|done]]). }
  assert ((run ctx msg trace (w, Running (c0 :: rest) n)).2 ≠ Panicked)
    as Hstay by (by apply (IH _ (c0 :: rest) n)).
  destruct (send_ready w c0), (Err ctx (now w)); try destruct pick;
    try (by apply Hsend); try done; by rewrite run_Returned.
Qed.

(** X15. Publish panics only on a closed channel: when no channel subscribed
    to the key is closed, the call does not panic, whatever the context and
    the schedule. *)
Theorem Publish_no_panic ctx key msg trace subscribers w :
  all_open w (subs_of subscribers key) →
  (Publish iter ctx key msg trace subscribers w).2.2 ≠ Panicked.
Proof.
  intros Hopen. unfold Publish, subs_of, all_open in *.
  destruct (subscribers !! key) as [subs|]; simpl in *; [|done].
  apply run_open. intros ch c Hin. apply Hopen.
  by apply (elem_of_iter iter iter_perm).
Qed.

Lemma run_closed ctx msg trace w todo n ch :
  (∀ t, Err ctx t = None) →
  ch ∈ todo → (∃ c, heap w !! ch = Some c ∧ closed c = true) →
  (run ctx msg trace (w, Running todo n)).2 = Panicked
  ∨ ∃ todo' n', (run ctx msg trace (w, Running todo n)).2 = Running todo' n'.
Proof.
  intros Hctx. revert w todo n.
  induction trace as [|a trace IH]; intros w todo n Hin Hcl.
  { right. by exists todo, n. }
  destruct todo as [|c0 rest]; [by apply elem_of_nil in Hin|].
  rewrite run_cons. unfold step; simpl.
  assert (∀ a', (∃ c, heap (env_step a' w) !! ch = Some c ∧ closed c = true))
    as Henv.
  { intros a'. destruct Hcl as (c & Hc & Hclosed).
    destruct a' as [|ch0|b]; simpl; [by eauto| |by eauto].
    destruct (heap w !! ch0) as [c0'|] eqn:E; [|by eauto]. simpl.
    destruct (decide (ch = ch0)) as [->|Hne].
    - rewrite lookup_insert_eq. eexists; split; [done|].
      rewrite closed_chanrecv. congruence.
    - rewrite lookup_insert_ne by done. by eauto. }
  destruct a as [|ch0|pick].
  - apply IH; [done|apply (Henv Tick)].
  - apply IH; [done|apply (Henv (Recv ch0))].
  - unfold select. rewrite Hctx.
    destruct (send_ready w c0) eqn:Hr0; [|by apply IH].
    destruct (send_case msg w c0 rest n) as [w' st'] eqn:Hs.
    destruct (decide (c0 = ch)) as [->|Hne].
    + unfold send_case in Hs. destruct Hcl as (c & Hc & Hclosed).
      rewrite Hc in Hs. simpl in Hs. unfold chansend in Hs.
      rewrite Hclosed in Hs. injection Hs as <- <-.
      left. by rewrite run_Panicked.
    + apply elem_of_cons in Hin as [->|Hin]; [done|].
      apply send_case_inv in Hs as [[-> ->]|(-> & _ & _ & Hother)].
      * left. by rewrite run_Panicked.
      * assert (loop rest (S n) = Running rest (S n)) as ->.
        { destruct rest; [by apply elem_of_nil in Hin|done]. }
        apply IH; [done|]. destruct Hcl as (c & Hc & Hclosed).
        exists c. split; [|done]. rewrite Hother by congruence. done.
Qed.

(** X16. A closed channel left subscribed to a key breaks every Publish on
    that key made with a context that cannot fire: the call never returns; it
    panics when it reaches the closed channel, if it is not blocked before. *)
Theorem Publish_closed_subscriber ctx key msg trace subscribers w ch c :
  (∀ t, Err ctx t = None) →
  ch ∈ subs_of subscribers key →
  heap w !! ch = Some c → closed c = true →
  ∀ n err, (Publish iter ctx key msg trace subscribers w).2.2 ≠ Returned n err.
Proof.
  intros Hctx Hch Hc Hcl n err. unfold Publish, subs_of in *.
  destruct (subscribers !! key) as [subs|]; simpl in *;
    [|by apply not_elem_of_empty in Hch].
  apply (elem_of_iter iter iter_perm) in Hch.
  assert (loop (iter subs) 0 = Running (iter subs) 0) as ->.
  { destruct (iter subs); [by apply elem_of_nil in Hch|done]. }
  destruct (run_closed ctx msg trace w (iter subs) 0 ch Hctx Hch)
    as [Hp|(todo' & n' & Hr)]; [by eauto|by rewrite Hp|by rewrite Hr].
Qed.

Lemma forget_loop rest n : Legacy.forget (loop rest n) = Legacy.bloop rest.
Proof. by destruct rest. Qed.

Lemma bstep_forget ctx msg w st a :
  (∀ t, Err ctx t = None) →
  Legacy.bstep msg (w, Legacy.forget st) a
  = ((step ctx msg (w, st) a).1, Legacy.forget (step ctx msg (w, st) a).2).
Proof.
  intros Hctx. destruct st as [[|ch rest] n|n err|]; try done.
  unfold Legacy.bstep, step; simpl.
  destruct a as [|ch0|pick]; try done.
  unfold select, Legacy.bsend, send_case. rewrite Hctx.
  destruct (send_ready w ch); [|done].
  destruct (heap w !! ch ≫= chansend msg); simpl; [|done].
  by rewrite forget_loop.
Qed.

(** X17. The two revisions of Publish agree: with a context that cannot fire,
    the context-aware Publish serves the endpoints, blocks and panics exactly
    as the first revision's plain blocking sends do, under every schedule;
    the second revision only adds the count and the nil error. *)
Theorem Publish_refines_first_revision ctx key msg trace subscribers w :
  (∀ t, Err ctx t = None) →
  Legacy.Publish iter key msg trace subscribers w
  = ((Publish iter ctx key msg trace subscribers w).1,
     ((Publish iter ctx key msg trace subscribers w).2.1,
      Legacy.forget (Publish iter ctx key msg trace subscribers w).2.2)).
Proof.
  intros Hctx. unfold Legacy.Publish, Publish.
  destruct (subscribers !! key) as [subs|]; simpl; [|done]. f_equal.
  rewrite <- forget_loop with (n := 0%nat).
  generalize (loop (iter subs) 0). revert w.
  induction trace as [|a trace IH]; intros w st; [done|].
  rewrite run_cons. simpl. rewrite (bstep_forget ctx) by done.
  destruct (step ctx msg (w, st) a) as [w1 st1]. apply IH.
Qed.

(** X18. After Unsubscribe, the endpoint takes no message published to the
    keys of the batch: whatever the context, the schedule and the outcome of
    a Publish on such a key, the endpoint is left with what it had. *)
Theorem Unsubscribe_stops_delivery keys ch ctx key msg trace subscribers w :
  key ∈ keys →
  inbox (Publish iter ctx key msg trace (Unsubscribe keys ch subscribers) w).2.1 ch
  = inbox w ch.
Proof.
  intros Hk.
  destruct (Publish_inboxes ctx key msg trace (Unsubscribe keys ch subscribers) w)
    as (sent & _ & Hsub & [_ Hout] & _).
  apply Hout. intros Hin. apply Hsub in Hin.
  rewrite subs_of_Unsubscribe, decide_True in Hin by done.
  rewrite elem_of_difference, elem_of_singleton in Hin. tauto.
Qed.

(** X19. After Subscribe, the endpoint takes the messages published to the
    keys of the batch: if the context stays silent and all subscribers of such
    a key, the new one included, can accept, a Publish on it that is scheduled
    once per subscriber returns the full count and no error, and the endpoint
    has taken the message once. *)
Theorem Subscribe_enables_delivery keys ch ctx key msg trace subscribers w :
  key ∈ keys →
  (∀ t, Err ctx t = None) →
  (∀ ch', ch' ∈ subs_of (Subscribe keys ch subscribers) key → accepts w ch') →
  (size (subs_of (Subscribe keys ch subscribers) key) ≤ runs trace)%nat →
  ∃ w', Publish iter ctx key msg trace (Subscribe keys ch subscribers) w
          = (Subscribe keys ch subscribers,
             (w', Returned (size (subs_of (Subscribe keys ch subscribers) key)) None))
        ∧ inbox w' ch ≡ₚ msg :: inbox w ch.
Proof.
  intros Hk Hctx Hacc Hlen.
  assert (ch ∈ subs_of (Subscribe keys ch subscribers) key) as Hch.
  { rewrite subs_of_Subscribe, decide_True by done.
    apply elem_of_union_l, elem_of_singleton. done. }
  destruct (Publish_inboxes ctx key msg trace (Subscribe keys ch subscribers) w)
    as (sent & Hnd & Hsub & [Hin _] & Hn).
  revert Hin Hn. unfold Publish, subs_of in *.
  destruct (Subscribe keys ch subscribers !! key) as [subs|] eqn:Hs; simpl in *;
    [|by apply not_elem_of_empty in Hch].
  assert ((run ctx msg trace (w, loop (iter subs) 0)).2
          = Returned (size subs) None) as Hrun.
  { rewrite <- (iter_length iter iter_perm subs).
    apply (run_all_ready ctx msg trace w _ 0).
    - done.
    - apply iter_NoDup, iter_perm.
    - intros ch' Hch'. by apply Hacc, (elem_of_iter iter iter_perm).
    - by rewrite (iter_length iter iter_perm). }
  destruct (run ctx msg trace (w, loop (iter subs) 0)) as [w' st].
  simpl in *. subst st. intros Hin Hn. exists w'. split; [done|].
  apply Hin. specialize (Hn _ _ eq_refl).
  destruct (decide (ch ∈ sent)) as [|Hout]; [done|]. exfalso.
  assert (length sent < size subs)%nat; [|lia].
  rewrite <- (iter_length iter iter_perm subs).
  assert (ch :: sent ⊆+ iter subs) as Hsubm.
  { apply NoDup_submseteq; [by apply NoDup_cons|].
    intros c Hc. apply (elem_of_iter iter iter_perm).
    apply elem_of_cons in Hc as [->|Hc]; [done|by apply Hsub]. }
  apply submseteq_length in Hsubm. simpl in Hsubm. lia.
Qed.

Lemma chan_wf_chanrecv c : chan_wf c → chan_wf (chanrecv c).
Proof.
  unfold chan_wf, chanrecv. intros Hwf.
  destruct (buf c) as [|m rest] eqn:Eb; simpl.
  - destruct (closed c); simpl; [by rewrite Eb|done].
  - intros Hq. by specialize (Hwf Hq).
Qed.

Lemma chan_wf_chansend msg c c' :
  chan_wf c → chansend msg c = Some c' →
  chan_wf c' ∧ got c' ++ buf c' = (got c ++ buf c) ++ [msg].
Proof.
  unfold chan_wf, chansend. intros Hwf. destruct (closed c); [done|].
  destruct (0 <? recvq c)%nat eqn:Hq; intros [= <-]; simpl.
  - apply Nat.ltb_lt in Hq. rewrite (Hwf Hq). split; [done|].
    by rewrite !app_nil_r.
  - apply Nat.ltb_ge in Hq. split; [lia|]. by rewrite app_assoc.
Qed.

Lemma world_wf_env_step a w :
  world_wf w → world_wf (env_step a w).
Proof.
  intros Hwf. destruct a as [|ch0|b]; simpl; try done.
  destruct (heap w !! ch0) as [c0|] eqn:E; [|done].
  intros ch c. simpl. destruct (decide (ch = ch0)) as [->|Hne].
  - rewrite lookup_insert_eq. intros [= <-].
    by apply chan_wf_chanrecv, (Hwf ch0).
  - rewrite lookup_insert_ne by done. apply Hwf.
Qed.

Lemma step_appends ctx msg cfg a :
  world_wf cfg.1 →
  world_wf (step ctx msg cfg a).1
  ∧ ∀ ch, ∃ k, inbox (step ctx msg cfg a).1 ch
               = inbox cfg.1 ch ++ replicate k msg.
Proof.
  destruct cfg as [w st]. simpl. intros Hwf.
  assert (∀ ch, ∃ k, inbox w ch = inbox w ch ++ replicate k msg) as Hsame.
  { intros ch. exists 0%nat. simpl. by rewrite app_nil_r. }
  destruct st as [[|c0 rest] n|n err|]; unfold step; simpl; try done.
  destruct a as [|ch0|pick].
  - split; [done|]. intros ch. exists 0%nat. simpl. by rewrite app_nil_r.
  - split; [by apply (world_wf_env_step (Recv ch0))|].
    intros ch. exists 0%nat.
    pose proof (inbox_env_step (Recv ch0) w ch) as E.
    simpl in E |- *. by rewrite app_nil_r.
  - assert (world_wf (send_case msg w c0 rest n).1
            ∧ ∀ ch, ∃ k, inbox (send_case msg w c0 rest n).1 ch
                         = inbox w ch ++ replicate k msg) as Hsend.
    { unfold send_case. destruct (heap w !! c0) as [c|] eqn:Hc0; simpl; [|done].
      destruct (chansend msg c) as [c'|] eqn:Hs; simpl; [|done].
      destruct (chan_wf_chansend msg c c' (Hwf c0 c Hc0) Hs) as [Hwf' Happ].
      split.
      - intros ch c1. simpl. destruct (decide (ch = c0)) as [->|Hne].
        + rewrite lookup_insert_eq. by intros [= <-].
        + rewrite lookup_insert_ne by done. apply Hwf.
      - intros ch. unfold inbox; simpl.
        destruct (decide (ch = c0)) as [->|Hne].
        + rewrite lookup_insert_eq, Hc0. by exists 1%nat.
        + rewrite lookup_insert_ne by done. exists 0%nat. simpl.
          by rewrite app_nil_r. }
    unfold select.
    destruct (send_ready w c0), (Err ctx (now w)); try destruct pick; done.
Qed.

Lemma run_appends ctx msg trace cfg :
  world_wf cfg.1 →
  world_wf (run ctx msg trace cfg).1
  ∧ ∀ ch, ∃ k, inbox (run ctx msg trace cfg).1 ch
               = inbox cfg.1 ch ++ replicate k msg.
Proof.
  revert cfg. induction trace as [|a trace IH]; intros cfg Hwf.
  { split; [done|]. intros ch. exists 0%nat. simpl. by rewrite app_nil_r. }
  rewrite run_cons. destruct (step_appends ctx msg cfg a Hwf) as [Hwf1 Hk1].
  destruct (IH _ Hwf1) as [Hwf2 Hk2]. split; [done|].
  intros ch. destruct (Hk1 ch) as [k1 E1], (Hk2 ch) as [k2 E2].
  exists (k1 + k2)%nat. by rewrite E2, E1, <- app_assoc, replicate_add.
Qed.

Lemma world_wf_env_run envs w : world_wf w → world_wf (env_run envs w).
Proof.
  revert w. induction envs as [|a envs IH]; intros w Hwf; [done|].
  apply IH. by apply world_wf_env_step.
Qed.

(** A complete fan-out on a well-formed world puts the message at the end of
    what each subscriber had. *)
Lemma Publish_complete_appends ctx key msg trace subscribers w subscribers' w' n :
  world_wf w →
  Publish iter ctx key msg trace subscribers w
    = (subscribers', (w', Returned n None)) →
  subscribers' = subscribers ∧ world_wf w'
  ∧ ∀ ch, ch ∈ subs_of subscribers key → inbox w' ch = inbox w ch ++ [msg].
Proof.
  intros Hwf Hpub.
  pose proof (Publish_served ctx key msg trace subscribers w) as Hserved.
  rewrite Hpub in Hserved.
  unfold Publish, subs_of in *.
  destruct (subscribers !! key) as [subs|]; simpl in *.
  - injection Hpub as <- Hrun.
    destruct (run_appends ctx msg trace (w, loop (iter subs) 0) Hwf)
      as [Hwf' Hk].
    rewrite Hrun in Hwf', Hk. simpl in *. do 2 (split; [done|]).
    destruct Hserved as [(sent & rest & Hi & [Hin _] & _ & Hnil)|[? _]]; [|done].
    rewrite (proj1 Hnil eq_refl), app_nil_r in Hi. subst sent.
    intros ch Hch. apply (elem_of_iter iter iter_perm) in Hch.
    specialize (Hin ch Hch). simpl in Hin. destruct (Hk ch) as [k Ek].
    apply Permutation_length in Hin. rewrite Ek in Hin.
    rewrite length_app, length_replicate in Hin. simpl in Hin.
    assert (k = 1%nat) as -> by lia. done.
  - injection Hpub as <- <- _. do 2 (split; [done|]).
    intros ch Hch. by apply not_elem_of_empty in Hch.
Qed.

(** X20. Messages published one after the other reach every subscriber in
    that order: after two complete Publish calls on a key, the readers having
    possibly taken messages in between, each subscriber has, after what it had
    before, the first message and then the second (in a world where a reader
    parks on a channel only when nothing is queued for it). *)
Theorem Publish_in_order ctx1 ctx2 key msg1 msg2 trace1 trace2 envs
    subscribers w s1 w1 n1 s2 w2 n2 :
  world_wf w →
  Publish iter ctx1 key msg1 trace1 subscribers w = (s1, (w1, Returned n1 None)) →
  Publish iter ctx2 key msg2 trace2 s1 (env_run envs w1)
    = (s2, (w2, Returned n2 None)) →
  ∀ ch, ch ∈ subs_of subscribers key → inbox w2 ch = inbox w ch ++ [msg1; msg2].
Proof.
  intros Hwf H1 H2 ch Hch.
  destruct (Publish_complete_appends _ _ _ _ _ _ _ _ _ Hwf H1)
    as (-> & Hwf1 & Happ1).
  destruct (Publish_complete_appends _ _ _ _ _ _ _ _ _
              (world_wf_env_run envs w1 Hwf1) H2) as (_ & _ & Happ2).
  rewrite (Happ2 ch Hch), inbox_env_run, (Happ1 ch Hch), <- app_assoc. done.
Qed.

End publish_more.

(** ** More on the lock discipline *)

Section concurrent_more.
Import Concurrent.
Context {K : Type} {EqK : EqDecision K} {CountK : Countable K} {T : Type}.
Implicit Types (s : system (K := K) (T := T))
  (gs : list (call (K := K) (T := T) * pc (K := K)))
  (p : pc (K := K)) (f : pc (K := K) → bool).

Lemma count_none f gs :
  (∀ i c p, gs !! i = Some (c, p) → f p = false) → count f gs = 0%nat.
Proof.
  induction gs as [|[c0 p0] gs IH]; intros Hall; simpl; [done|].
  rewrite (Hall 0%nat c0 p0 eq_refl). simpl. apply IH.
  intros i c p Hi. by apply (Hall (S i) c p).
Qed.

(** X21. The lock never leaks: in every state any interleaving of any calls
    can reach, the lock word counts exactly the Publish calls between RLock
    and RUnlock and records a writer exactly when a Subscribe or Unsubscribe
    call is between Lock and Unlock; so when no call is inside (all are at
    their entry or over, a Publish that panicked included) the lock is free. *)
Theorem lock_never_leaks (calls : list (call (K := K) (T := T)))
    (index : gmap K (gset chan)) (w : world (T := T)) schedule :
  let s := exec schedule (start calls index w) in
  readers (mu (ps s)) = count holds_read (goroutines s)
  ∧ (writer (mu (ps s)) = true ↔
     ∃ i c todo, goroutines s !! i = Some (c, InWrite todo))
  ∧ ((∀ i c p, goroutines s !! i = Some (c, p) →
        p = AtEntry ∨ ∃ res, p = Done res) →
     mu (ps s) = Mutex false 0).
Proof.
  intros s.
  pose proof (lock_inv_exec schedule _ (lock_inv_start calls index w))
    as (Hw & Hr & Hwr).
  fold s in Hw, Hr, Hwr.
  split; [done|]. split; [split|].
  - intros Hmu. rewrite Hmu in Hw.
    destruct (decide (count holds_write (goroutines s) = 0%nat)) as [Hz|Hnz];
      [lia|].
    clear -Hnz. induction (goroutines s) as [|[c0 p0] gs IH]; simpl in *;
      [done|].
    destruct p0 as [|todo| | |]; simpl in *;
      try (destruct (IH Hnz) as (i & c & todo' & Hi); by exists (S i), c, todo').
    by exists 0%nat, c0, todo.
  - intros (i & c & todo & Hi).
    pose proof (count_ge holds_write _ _ _ _ Hi eq_refl).
    destruct (writer (mu (ps s))); [done|lia].
  - intros Hout.
    rewrite (count_none holds_write) in Hw
      by (intros i c p Hi; by destruct (Hout i c p Hi) as [->|[? ->]]).
    rewrite (count_none holds_read) in Hr
      by (intros i c p Hi; by destruct (Hout i c p Hi) as [->|[? ->]]).
    destruct (mu (ps s)) as [wr rd]; simpl in *. subst rd.
    by destruct wr.
Qed.

(** X22. While a Publish call is inside the lock, blocked in a send or not,
    no Subscribe or Unsubscribe call can start, on any key: such a call at its
    entry does not move. *)
Theorem writers_wait_for_fanout (calls : list (call (K := K) (T := T)))
    (index : gmap K (gset chan)) (w : world (T := T)) schedule i c p j cj pick :
  let s := exec schedule (start calls index w) in
  goroutines s !! i = Some (c, p) → holds_read p = true →
  goroutines s !! j = Some (cj, AtEntry) →
  (∀ it ctx key msg, cj ≠ CallPublish it ctx key msg) →
  sys_step s (Go j pick) = s.
Proof.
  intros s Hi Hp Hj Hcj.
  pose proof (lock_inv_exec schedule _ (lock_inv_start calls index w))
    as (_ & Hr & _).
  fold s in Hr.
  pose proof (count_ge holds_read _ _ _ _ Hi Hp) as Hge.
  simpl. rewrite Hj.
  assert ((readers (mu (ps s)) =? 0)%nat = false) as Hz
    by (apply Nat.eqb_neq; lia).
  destruct cj as [keys ch|keys ch|it ctx key msg]; simpl;
    [| |by destruct (Hcj it ctx key msg)];
    unfold write_call_step; by rewrite Hz, andb_false_r.
Qed.


Lemma lookup_update gs j c p p' i :
  gs !! j = Some (c, p) →
  <[j := (c, p')]> gs !! i = if decide (i = j) then Some (c, p') else gs !! i.
Proof.
  intros Hj. destruct (decide (i = j)) as [->|Hne].
  - apply list_lookup_insert_eq. by eapply lookup_lt_Some.
  - by apply list_lookup_insert_ne.
Qed.

Lemma calls_step s a :
  (goroutines (sys_step s a)).*1 = (goroutines s).*1.
Proof.
  destruct a as [j pick|e]; simpl; [|done].
  destruct (goroutines s !! j) as [[c p]|] eqn:Hj; [|done].
  destruct (goroutine_step c p pick (ps s) (wld s)) as [[[p' r'] w']|]; [|done].
  simpl. rewrite list_fmap_insert. simpl. apply list_insert_id.
  by rewrite list_lookup_fmap, Hj.
Qed.

Lemma calls_exec schedule s :
  (goroutines (exec schedule s)).*1 = (goroutines s).*1.
Proof.
  revert s. induction schedule as [|a schedule IH]; intros s; [done|].
  simpl. fold (exec schedule (sys_step s a)). by rewrite IH, calls_step.
Qed.

Lemma calls_lookup (calls : list (call (K := K) (T := T))) gs i c p :
  gs.*1 = calls → gs !! i = Some (c, p) → calls !! i = Some c.
Proof. intros <- Hi. by rewrite list_lookup_fmap, Hi. Qed.

(** The four kinds of steps, by what they do to the index. *)
Lemma goroutine_step_cases c p pick (r : PubSub (K := K)) (w : world (T := T))
    p' r' w' :
  goroutine_step c p pick r w = Some (p', r', w') →
  (p = AtEntry ∧ is_Some (Serial.to_op c) ∧ p' = InWrite (Serial.keys_of c)
   ∧ writer (mu r) = false ∧ subscribers r' = subscribers r)
  ∨ (∃ k ks, p = InWrite (k :: ks) ∧ is_Some (Serial.to_op c) ∧ p' = InWrite ks
       ∧ subscribers r' = mutation c (subscribers r) k)
  ∨ (p = InWrite [] ∧ is_Some (Serial.to_op c) ∧ p' = Done None
     ∧ subscribers r' = subscribers r)
  ∨ (Serial.to_op c = None ∧ holds_write p = false ∧ holds_write p' = false
     ∧ subscribers r' = subscribers r).
Proof.
  destruct c as [keys ch|keys ch|iter ctx key msg]; simpl;
    unfold write_call_step, publish_step.
  1,2: destruct p as [|[|k ks]| |st|res]; try done;
    [ destruct (writer (mu r)) eqn:Hmu; simpl; [done|];
      destruct (readers (mu r) =? 0)%nat; [|done];
      intros [= <- <- <-]; left; by eauto
    | intros [= <- <- <-]; right; right; left; by eauto
    | intros [= <- <- <-]; right; left; exists k, ks; by eauto ].
  intros Hs. do 3 right.
  destruct p as [|todo| |st|res]; try done.
  - destruct (writer (mu r)); [done|]. by injection Hs as <- <- <-.
  - destruct (subscribers r !! key); by injection Hs as <- <- <-.
  - destruct st as [[|ch rest] n|n e|]; try by injection Hs as <- <- <-.
    destruct (select ctx msg pick w ch rest n). by injection Hs as <- <- <-.
Qed.

Lemma apply_op_mutation (c : call (K := K) (T := T)) (o : History.op (K := K)) m :
  Serial.to_op c = Some o →
  History.apply_op m o = foldl (mutation c) m (Serial.keys_of c).
Proof. destruct c; simpl; intros [= <-]; done. Qed.

Lemma serialized_step (calls : list (call (K := K) (T := T))) index0 s a order :
  lock_inv s → (goroutines s).*1 = calls →
  Serial.serialized calls index0 s order →
  ∃ order', Serial.serialized calls index0 (sys_step s a) order'.
Proof.
  intros (Hw & _ & _) Hcalls (Hnd & Hmem & Hin & Hout).
  destruct a as [j pick|e]; [|by exists order].
  simpl. destruct (goroutines s !! j) as [[c p]|] eqn:Hj; [|by exists order].
  destruct (goroutine_step c p pick (ps s) (wld s)) as [[[p' r'] w']|] eqn:Hstep;
    [|by exists order].
  pose proof (lookup_update (goroutines s) j c p p') as Hup.
  assert (∀ i c' todo, i ≠ j → holds_write p = true →
            goroutines s !! i = Some (c', InWrite todo) → False) as Hone.
  { intros i c' todo Hne Hp Hi.
    pose proof (count_two holds_write _ _ _ _ _ _ _ Hne Hi Hj eq_refl Hp).
    destruct (writer (mu (ps s))); lia. }
  assert (∀ i, i ≠ j → Serial.committed
            (System r' w' (<[j:=(c, p')]> (goroutines s))) i
            ↔ Serial.committed s i) as Hcom.
  { intros i Hne. unfold Serial.committed; simpl.
    by rewrite (Hup i Hj), decide_False. }
  apply goroutine_step_cases in Hstep
    as [(-> & Hop & -> & Hmu & Hsub)
       |[(k & ks & -> & Hop & -> & Hsub)
        |[(-> & Hop & -> & Hsub)
         |(Hop & Hp & Hp' & Hsub)]]].
  - (* Lock *)
    assert (∀ i c' p0, goroutines s !! i = Some (c', p0) →
              holds_write p0 = false) as Hnobody.
    { intros i c' p0 Hi. destruct (holds_write p0) eqn:Hp0; [|done].
      pose proof (count_ge holds_write _ _ _ _ Hi Hp0).
      rewrite Hmu in Hw. lia. }
    exists order. split; [done|]. split; [|split].
    + intros i. rewrite Hmem. destruct (decide (i = j)) as [->|Hne];
        [|by rewrite Hcom].
      unfold Serial.committed; simpl. rewrite (Hup j Hj), decide_True by done.
      rewrite Hj. split; intros (? & ? & [= _ ?] & _); done.
    + intros i c' todo. simpl. rewrite (Hup i Hj), Hsub.
      destruct (decide (i = j)) as [->|Hne].
      * intros [= <- <-]. split; [done|]. exists []. split; [done|].
        simpl. by apply Hout.
      * intros Hi. by specialize (Hnobody i c' _ Hi).
    + intros Hall. specialize (Hall j c (InWrite (Serial.keys_of c))).
      simpl in Hall. rewrite (Hup j Hj), decide_True in Hall by done.
      by specialize (Hall eq_refl).
  - (* one key of the batch *)
    destruct (Hin j c (k :: ks) Hj) as (_ & done & Hkeys & Hidx).
    exists order. split; [done|]. split; [|split].
    + intros i. rewrite Hmem. destruct (decide (i = j)) as [->|Hne];
        [|by rewrite Hcom].
      unfold Serial.committed; simpl. rewrite (Hup j Hj), decide_True by done.
      rewrite Hj. split; intros (? & ? & [= _ ?] & _); done.
    + intros i c' todo. simpl. rewrite (Hup i Hj), Hsub.
      destruct (decide (i = j)) as [->|Hne].
      * intros [= <- <-]. split; [done|]. exists (done ++ [k]).
        split; [by rewrite <- app_assoc|].
        by rewrite foldl_app, <- Hidx.
      * intros Hi. by destruct (Hone i c' todo Hne eq_refl Hi).
    + intros Hall. specialize (Hall j c (InWrite ks)).
      simpl in Hall. rewrite (Hup j Hj), decide_True in Hall by done.
      by specialize (Hall eq_refl).
  - (* Unlock *)
    destruct (Hin j c [] Hj) as (_ & done & Hkeys & Hidx).
    rewrite app_nil_r in Hkeys. subst done.
    destruct Hop as [o Ho].
    assert (j ∉ order) as Hjo.
    { rewrite Hmem. intros (? & ? & Hd & _). rewrite Hj in Hd. done. }
    exists (order ++ [j]). split; [|split; [|split]].
    + apply NoDup_app. split; [done|]. split; [|apply NoDup_singleton].
      intros i Hi ->%list_elem_of_singleton. done.
    + intros i. rewrite elem_of_app, list_elem_of_singleton, Hmem.
      destruct (decide (i = j)) as [->|Hne].
      * unfold Serial.committed at 2; simpl.
        rewrite (Hup j Hj), decide_True by done.
        split; [|by right]. intros _. exists c, None. by eauto.
      * rewrite Hcom by done. tauto.
    + intros i c' todo. simpl. rewrite (Hup i Hj).
      destruct (decide (i = j)) as [->|Hne]; [done|].
      intros Hi. by destruct (Hone i c' todo Hne eq_refl Hi).
    + intros _. simpl. rewrite Hsub, Hidx.
      unfold Serial.ops_of. rewrite omap_app. simpl.
      rewrite (calls_lookup calls _ _ _ _ Hcalls Hj). simpl. rewrite Ho.
      unfold History.apply_ops. rewrite foldl_app. simpl.
      by rewrite (apply_op_mutation c o).
  - (* a step of Publish *)
    exists order. split; [done|]. split; [|split].
    + intros i. rewrite Hmem. destruct (decide (i = j)) as [->|Hne];
        [|by rewrite Hcom].
      unfold Serial.committed; simpl. rewrite (Hup j Hj), decide_True by done.
      rewrite Hj.
      split; intros (c0 & res & [= <- _] & [o Ho]); congruence.
    + intros i c' todo. simpl. rewrite (Hup i Hj), Hsub.
      destruct (decide (i = j)) as [->|Hne]; [|apply Hin].
      intros [= _ Hw']. rewrite Hw' in Hp'. done.
    + intros Hall. simpl. rewrite Hsub. apply Hout.
      intros i c' p0 Hi. destruct (decide (i = j)) as [->|Hne].
      * rewrite Hj in Hi. by injection Hi as <- <-.
      * apply (Hall i c'). simpl. by rewrite (Hup i Hj), decide_False.
Qed.

Lemma serialized_start (calls : list (call (K := K) (T := T))) index0
    (w : world (T := T)) :
  Serial.serialized calls index0 (start calls index0 w) [].
Proof.
  assert (∀ i c p, goroutines (start calls index0 w) !! i = Some (c, p) →
            p = AtEntry) as Hentry.
  { intros i c p. unfold start; simpl. rewrite list_lookup_fmap.
    destruct (calls !! i); simpl; [|done]. by intros [= _ <-]. }
  split; [apply NoDup_nil_2|]. split; [|split].
  - intros i. split; [by intros ?%elem_of_nil|].
    intros (c & res & Hi & _). by apply Hentry in Hi.
  - intros i c todo Hi. by apply Hentry in Hi.
  - done.
Qed.

Lemma serialized_exec (calls : list (call (K := K) (T := T))) index0 schedule s order :
  lock_inv s → (goroutines s).*1 = calls →
  Serial.serialized calls index0 s order →
  ∃ order', Serial.serialized calls index0 (exec schedule s) order'.
Proof.
  revert s order. induction schedule as [|a schedule IH];
    intros s order Hinv Hcalls Hser; [by exists order|].
  destruct (serialized_step calls index0 s a order Hinv Hcalls Hser)
    as [order1 Hser1].
  apply (IH (sys_step s a) order1); [by apply lock_inv_step| |done].
  by rewrite calls_step.
Qed.

(** X24. Subscribe and Unsubscribe calls serialize: in every state any
    interleaving of any calls can reach in which no write call is under way,
    the index is what the completed Subscribe and Unsubscribe calls give when
    made one after the other on the initial index, each once, in some order;
    no interleaving with other calls shows through. *)
Theorem mutations_serialize (calls : list (call (K := K) (T := T)))
    (index : gmap K (gset chan)) (w : world (T := T)) schedule :
  let s := exec schedule (start calls index w) in
  (∀ i c p, goroutines s !! i = Some (c, p) → holds_write p = false) →
  ∃ order,
    NoDup order
    ∧ (∀ i, i ∈ order ↔ Serial.committed s i)
    ∧ subscribers (ps s)
      = History.apply_ops (Serial.ops_of calls order) index.
Proof.
  intros s Hquiet.
  destruct (serialized_exec calls index schedule (start calls index w) []
              (lock_inv_start calls index w)) as (order & Hnd & Hmem & _ & Hout).
  { unfold start; simpl. rewrite <- list_fmap_compose. apply list_fmap_id. }
  { apply serialized_start. }
  exists order. split; [done|]. split; [done|]. by apply Hout.
Qed.

End concurrent_more.

(** ** The further properties at the examples *)

Lemma demo_index_inv : index_inv demo_index.
Proof. apply reachable_index_inv, demo_index_reachable. Qed.

Lemma demo_subs_topic1 : subs_of demo_index "topic1" = {[chA; chB]}.
Proof. vm_compute. reflexivity. Qed.

Lemma demo_subs_topic2 : subs_of demo_index "topic2" = {[chA]}.
Proof. vm_compute. reflexivity. Qed.

Lemma Subscribe_effect_witness :
  Subscribe ["topic3"] chB demo_index !! "topic1" = demo_index !! "topic1".
Proof.
  apply (proj1 (proj2 (Subscribe_effect ["topic3"] chB demo_index))).
  intros Hin. apply list_elem_of_singleton in Hin. discriminate Hin.
Defined.

Lemma batch_keys_as_set_witness :
  Subscribe ["a"; "b"; "a"] chA demo_index = Subscribe ["b"; "a"] chA demo_index
  ∧ Unsubscribe ["a"; "b"; "a"] chA demo_index
    = Unsubscribe ["b"; "a"] chA demo_index.
Proof.
  apply batch_keys_as_set. intros k.
  rewrite !elem_of_cons, !elem_of_nil. tauto.
Defined.

Lemma Unsubscribe_Subscribe_witness :
  Unsubscribe ["topic2"; "topic3"] chB
    (Subscribe ["topic2"; "topic3"] chB demo_index) = demo_index.
Proof.
  apply Unsubscribe_Subscribe; [apply demo_index_inv|].
  intros k Hk. apply elem_of_cons in Hk as [->|Hk].
  - rewrite demo_subs_topic2. intros Hin.
    apply elem_of_singleton in Hin. discriminate Hin.
  - apply list_elem_of_singleton in Hk as ->.
    assert (subs_of demo_index "topic3" = ∅) as -> by (vm_compute; reflexivity).
    apply not_elem_of_empty.
Defined.

Lemma Subscribe_Unsubscribe_witness :
  Subscribe ["topic1"; "topic2"] chA
    (Unsubscribe ["topic1"; "topic2"] chA demo_index) = demo_index.
Proof.
  apply Subscribe_Unsubscribe.
  intros k Hk. apply elem_of_cons in Hk as [->|Hk].
  - rewrite demo_subs_topic1. apply elem_of_union_l, elem_of_singleton. done.
  - apply list_elem_of_singleton in Hk as ->.
    rewrite demo_subs_topic2. by apply elem_of_singleton.
Defined.

Lemma calls_commute_witness :
  Subscribe ["topic1"; "topic3"] chA (Unsubscribe ["topic1"] chB demo_index)
  = Unsubscribe ["topic1"] chB (Subscribe ["topic1"; "topic3"] chA demo_index).
Proof.
  apply (proj2 (proj2 (calls_commute ["topic1"; "topic3"] ["topic1"] chA chB
                         demo_index))).
  discriminate.
Defined.

Lemma demo_world_accepts ch :
  ch ∈ ({[chA; chB]} : gset chan) → accepts demo_world ch.
Proof.
  intros Hch. apply elem_of_union in Hch as [Hch|Hch];
    apply elem_of_singleton in Hch; subst ch; eexists;
    (split; [vm_compute; reflexivity|]); simpl; (split; [done|lia]).
Qed.

Lemma Publish_at_most_once_witness :
  inbox (Publish elements (DoneAt 1 Canceled) "topic1" "msg"
           [Run true; Tick; Run false] demo_index demo_world).2.1 chB
  = inbox demo_world chB
  ∨ (chB ∈ subs_of demo_index "topic1"
     ∧ inbox (Publish elements (DoneAt 1 Canceled) "topic1" "msg"
                [Run true; Tick; Run false] demo_index demo_world).2.1 chB
         ≡ₚ "msg" :: inbox demo_world chB).
Proof. apply (Publish_at_most_once elements elements_perm). Defined.

Lemma Publish_count_exact_witness :
  (1 ≤ size (subs_of demo_index "topic1"))%nat
  ∧ ∃ sent, NoDup sent ∧ length sent = 1%nat
      ∧ (∀ ch, ch ∈ sent →
           ch ∈ subs_of demo_index "topic1"
           ∧ inbox (Publish elements (DoneAt 1 Canceled) "topic1" "msg"
                      [Run true; Tick; Run false] demo_index demo_world).2.1 ch
               ≡ₚ "msg" :: inbox demo_world ch)
      ∧ (∀ ch, ch ∉ sent →
           inbox (Publish elements (DoneAt 1 Canceled) "topic1" "msg"
                    [Run true; Tick; Run false] demo_index demo_world).2.1 ch
           = inbox demo_world ch).
Proof.
  eapply (Publish_count_exact elements elements_perm (DoneAt 1 Canceled)
            "topic1" "msg" [Run true; Tick; Run false] demo_index demo_world).
  vm_compute. reflexivity.
Defined.

Lemma Publish_error_is_ctx_err_witness :
  Err (DoneAt 1 Canceled)
    (now (Publish elements (DoneAt 1 Canceled) "topic1" "msg"
            [Run true; Tick; Run false] demo_index demo_world).2.1)
  = Some Canceled
  ∧ ∃ t0, DoneAt 1 Canceled = DoneAt t0 Canceled
          ∧ t0 ≤ now (Publish elements (DoneAt 1 Canceled) "topic1" "msg"
                        [Run true; Tick; Run false] demo_index demo_world).2.1.
Proof.
  eapply (Publish_error_is_ctx_err elements (DoneAt 1 Canceled)
            "topic1" "msg" [Run true; Tick; Run false] demo_index demo_world).
  vm_compute. reflexivity.
Defined.

Lemma Publish_ends_when_done_witness :
  (∃ n err, (Publish elements (DoneAt 0 Canceled) "topic1" "msg"
               [Run false; Tick; Run true] demo_index stalled_world).2.2
            = Returned n err)
  ∨ (Publish elements (DoneAt 0 Canceled) "topic1" "msg"
       [Run false; Tick; Run true] demo_index stalled_world).2.2 = Panicked.
Proof.
  apply (Publish_ends_when_done elements elements_perm (DoneAt 0 Canceled)
           "topic1" "msg" [Run false; Tick; Run true] demo_index stalled_world
           Canceled).
  - reflexivity.
  - vm_compute. lia.
Defined.

Lemma PublishWithTimeout_bounded_witness :
  (∃ n err, (PublishWithTimeout elements "topic1" "msg" 2
               ([Run true; Tick; Tick] ++ [Run true; Run true])
               demo_index stalled_world).2.2 = Returned n err)
  ∨ (PublishWithTimeout elements "topic1" "msg" 2
       ([Run true; Tick; Tick] ++ [Run true; Run true])
       demo_index stalled_world).2.2 = Panicked.
Proof.
  apply (PublishWithTimeout_bounded elements elements_perm).
  - vm_compute. discriminate.
  - vm_compute. lia.
Defined.

Lemma PublishWithTimeout_error_witness :
  DeadlineExceeded = DeadlineExceeded
  ∧ now stalled_world + 1
    ≤ now (PublishWithTimeout elements "topic1" "msg" 1
             [Run true; Tick; Run true] demo_index stalled_world).2.1.
Proof.
  eapply (PublishWithTimeout_error elements "topic1" "msg" 1
            [Run true; Tick; Run true] demo_index stalled_world).
  vm_compute. reflexivity.
Defined.

Lemma Publish_stalls_witness :
  (Publish elements Background "topic1" "msg"
     [Run true; Tick; Recv chB; Run true] demo_index stalled_world).2.2
  ≠ Returned 2 None
  ∧ heap (Publish elements Background "topic1" "msg"
            [Run true; Tick; Recv chB; Run true] demo_index stalled_world).2.1
      !! chA
    = heap stalled_world !! chA.
Proof.
  destruct (Publish_stalls elements elements_perm Background "topic1" "msg"
              [Run true; Tick; Recv chB; Run true] demo_index stalled_world chA)
    as [Hnever Hsame].
  - intros t. reflexivity.
  - rewrite demo_subs_topic1. apply elem_of_union_l, elem_of_singleton. done.
  - vm_compute. reflexivity.
  - vm_compute. reflexivity.
  - split; [apply Hnever | apply Hsame].
Defined.

Lemma Publish_no_panic_witness :
  (Publish elements (DoneAt 1 Canceled) "topic1" "msg"
     [Run true; Tick; Run true] demo_index demo_world).2.2 ≠ Panicked.
Proof.
  apply (Publish_no_panic elements elements_perm).
  intros ch c Hin Hc. rewrite demo_subs_topic1 in Hin.
  apply elem_of_union in Hin as [Hin|Hin]; apply elem_of_singleton in Hin;
    subst ch; vm_compute in Hc; injection Hc as <-; reflexivity.
Defined.

Lemma Publish_closed_subscriber_witness :
  (Publish elements Background "topic1" "msg"
     [Run true; Run true; Run true] demo_index closed_world).2.2
  ≠ Returned 2 None.
Proof.
  apply (Publish_closed_subscriber elements elements_perm Background "topic1"
           "msg" _ demo_index closed_world chA (Hchan 0 [] 0 true [])).
  - intros t. reflexivity.
  - rewrite demo_subs_topic1. apply elem_of_union_l, elem_of_singleton. done.
  - vm_compute. reflexivity.
  - reflexivity.
Defined.

Lemma Publish_refines_first_revision_witness :
  Legacy.Publish elements "topic1" "msg" [Run true; Tick; Run true]
    demo_index stalled_world
  = ((Publish elements Background "topic1" "msg" [Run true; Tick; Run true]
        demo_index stalled_world).1,
     ((Publish elements Background "topic1" "msg" [Run true; Tick; Run true]
         demo_index stalled_world).2.1,
      Legacy.forget
        (Publish elements Background "topic1" "msg" [Run true; Tick; Run true]
           demo_index stalled_world).2.2)).
Proof.
  apply Publish_refines_first_revision. intros t. reflexivity.
Defined.

Lemma Unsubscribe_stops_delivery_witness :
  inbox (Publish elements Background "topic1" "msg" [Run true; Run true]
           (Unsubscribe ["topic1"; "topic2"] chA demo_index) demo_world).2.1 chA
  = inbox demo_world chA.
Proof.
  apply (Unsubscribe_stops_delivery elements elements_perm).
  apply list_elem_of_here.
Defined.

Lemma Subscribe_enables_delivery_witness :
  ∃ w', Publish elements Background "topic1" "msg" [Run true; Run true]
          (Subscribe ["topic1"] chA (Subscribe ["topic1"] chB New)) demo_world
        = (Subscribe ["topic1"] chA (Subscribe ["topic1"] chB New),
           (w', Returned
                  (size (subs_of (Subscribe ["topic1"] chA
                                    (Subscribe ["topic1"] chB New)) "topic1"))
                  None))
      ∧ inbox w' chA ≡ₚ "msg" :: inbox demo_world chA.
Proof.
  apply (Subscribe_enables_delivery elements elements_perm).
  - apply list_elem_of_here.
  - intros t. reflexivity.
  - assert (subs_of (Subscribe ["topic1"] chA (Subscribe ["topic1"] chB New))
              "topic1" = {[chA; chB]}) as -> by (vm_compute; reflexivity).
    apply demo_world_accepts.
  - vm_compute. lia.
Defined.

(** [Example_contextAwarePublishing]: the two publications are both
    delivered, and the subscriber then reads them in the order published. *)
Lemma Publish_in_order_witness :
  inbox (PublishWithTimeout elements "alerts" "timeout-test" 100 [Run true]
           alerts_index
           (env_run [Tick]
              (Publish elements Background "alerts" "urgent" [Run true]
                 alerts_index alerts_world).2.1)).2.1 chA
  = inbox alerts_world chA ++ ["urgent"; "timeout-test"].
Proof.
  eapply (Publish_in_order elements elements_perm Background
            (WithTimeout Background 1 100) "alerts" "urgent" "timeout-test"
            [Run true] [Run true] [Tick] alerts_index alerts_world).
  - intros ch c Hc.
    destruct (decide (ch = chA)) as [->|Hne].
    + vm_compute in Hc. injection Hc as <-. intros Hq. simpl in Hq. lia.
    + unfold alerts_world in Hc. simpl in Hc.
      rewrite lookup_insert_ne in Hc by done. by rewrite lookup_empty in Hc.
  - vm_compute. reflexivity.
  - vm_compute. reflexivity.
  - assert (subs_of alerts_index "alerts" = {[chA]}) as ->
      by (vm_compute; reflexivity).
    by apply elem_of_singleton.
Defined.

Lemma lock_never_leaks_witness :
  Concurrent.mu
    (Concurrent.ps
       (Concurrent.exec
          [Concurrent.Go 1 true; Concurrent.Go 0 true; Concurrent.Go 1 true;
           Concurrent.Go 1 true; Concurrent.Go 1 true; Concurrent.Go 1 true]
          (Concurrent.start demo_calls demo_index closed_world)))
  = Concurrent.Mutex false 0.
Proof.
  apply (proj2 (proj2 (lock_never_leaks demo_calls demo_index closed_world _))).
  intros [|[|[|i]]] c p Hi; vm_compute in Hi; try discriminate Hi;
    injection Hi as _ <-; (by left) || (right; by eexists).
Defined.

Lemma writers_wait_for_fanout_witness :
  Concurrent.sys_step
    (Concurrent.exec [Concurrent.Go 1 true; Concurrent.Go 1 true]
       (Concurrent.start demo_calls demo_index stalled_world))
    (Concurrent.Go 2 true)
  = Concurrent.exec [Concurrent.Go 1 true; Concurrent.Go 1 true]
      (Concurrent.start demo_calls demo_index stalled_world).
Proof.
  eapply (writers_wait_for_fanout demo_calls demo_index stalled_world
            [Concurrent.Go 1 true; Concurrent.Go 1 true] 1%nat _ _ 2%nat
            (Concurrent.CallUnsubscribe ["topic1"] chB) true).
  - vm_compute. reflexivity.
  - reflexivity.
  - vm_compute. reflexivity.
  - intros it ctx key msg. discriminate.
Defined.


Lemma mutations_serialize_witness :
  ∃ order,
    NoDup order
    ∧ (∀ i, i ∈ order ↔
         Serial.committed
           (Concurrent.exec
              demo_schedule
              (Concurrent.start demo_calls demo_index demo_world)) i)
    ∧ Concurrent.subscribers
        (Concurrent.ps
           (Concurrent.exec
              demo_schedule
              (Concurrent.start demo_calls demo_index demo_world)))
      = History.apply_ops (Serial.ops_of demo_calls order) demo_index.
Proof.
  apply (mutations_serialize demo_calls demo_index demo_world).
  intros [|[|[|i]]] c p Hi; vm_compute in Hi; try discriminate Hi;
    injection Hi as _ <-; reflexivity.
Defined.
